(** * The customer-message Lambda of the e-commerce support simulator

    A shallow embedding of
    [examples/ecommerce-support-simulator/lambda/customerMessage/index.ts]:
    the module-level state ([apiKey], [orchestrator], [orchestratorPromise]),
    [getApiKeyFromSSM], [initializeOrchestrator] and the SQS [handler].

    The asynchronous functions are written once, as trees of the operations
    they perform ([async]).  Two semantics read those trees:
    - [Seq.run] runs one call to completion against a model of the services
      outside the process (one handler invocation after the other);
    - [Loop.step] is the JavaScript event loop: any number of invocations,
      each suspended at its [await]s and resumed in any order.

    The first part of the file holds the definitions, the second the
    lemmas and theorems. *)

From Stdlib Require Import String List Bool Arith Lia DecimalString.
Import ListNotations.
Local Open Scope string_scope.
Local Open Scope list_scope.

Set Implicit Arguments.
Set Warnings "-register-all".

(** ** JavaScript values and exceptions *)

(** What [JSON.parse] can return, plus [undefined], which a property read
    yields for a missing key.  A number is known by the text [String(n)]
    gives for it: nothing here computes with it. *)
Inductive value : Type :=
| VUndefined
| VNull
| VBool (b : bool)
| VNum (text : string)
| VStr (s : string)
| VArr (items : list value)
| VObj (fields : list (string * value)).

(** A thrown value: an [Error] object, by constructor name and message. *)
Record exn : Type := mkExn { ename : string; emessage : string }.

Definition Error (msg : string) : exn := mkExn "Error" msg.
Definition TypeError (msg : string) : exn := mkExn "TypeError" msg.

(** The member [k] of an object, whose members are listed in order, each key
    once. *)
Fixpoint lookup (k : string) (fields : list (string * value)) : option value :=
  match fields with
  | [] => None
  | (k', v) :: rest => if String.eqb k k' then Some v else lookup k rest
  end.

(** [v.k] for the two keys the handler reads, [sessionId] and [message]:
    reading a property of [null] or [undefined] throws a TypeError, an object
    gives its field or [undefined], and no other kind of value (nor its
    prototype) defines either key. *)
Definition getProp (v : value) (k : string) : exn + value :=
  match v with
  | VNull =>
      inl (TypeError ("Cannot read properties of null (reading '" ++ k ++ "')"))
  | VUndefined =>
      inl (TypeError ("Cannot read properties of undefined (reading '" ++ k ++ "')"))
  | VObj fields =>
      inr (match lookup k fields with Some x => x | None => VUndefined end)
  | _ => inr VUndefined
  end.

(** [String(v)], the conversion a template literal applies to what it
    embeds.  An object is converted through its [toString] member: a parsed
    object that has a member of that name has one that is no function (and
    then neither its [valueOf] nor [Object.prototype.valueOf] yields a
    primitive), which is a TypeError; any other gets [Object.prototype]'s.  An
    array is joined, its items converted in turn, [null] and [undefined] to
    the empty string. *)
Fixpoint ToString (v : value) : exn + string :=
  match v with
  | VUndefined => inr "undefined"
  | VNull => inr "null"
  | VBool true => inr "true"
  | VBool false => inr "false"
  | VNum text => inr text
  | VStr s => inr s
  | VArr items =>
      (fix join (separator : string) (items : list value) : exn + string :=
         match items with
         | [] => inr ""
         | item :: rest =>
             match match item with
                   | VUndefined | VNull => inr ""
                   | _ => ToString item
                   end with
             | inl e => inl e
             | inr s =>
                 match join "," rest with
                 | inl e => inl e
                 | inr t => inr (separator ++ s ++ t)%string
                 end
             end
         end) "" items
  | VObj fields =>
      match lookup "toString" fields with
      | Some _ => inl (TypeError "Cannot convert object to primitive value")
      | None => inr "[object Object]"
      end
  end.

(** The string a truthiness test lets through: [Some x] exactly when the
    value is a non-empty string, so that [!s] holds exactly when
    [nonEmpty s = None] ([undefined], [null] and the empty string are falsy). *)
Definition nonEmpty (s : option string) : option string :=
  match s with
  | Some x => if String.eqb x "" then None else Some x
  | None => None
  end.

(** ** The AWS and orchestrator objects the module touches *)

Record Env : Type := mkEnv {
  QUEUE_URL : option string;
  HISTORY_TABLE_NAME : option string;
  AWS_REGION : option string;
  HISTORY_TABLE_TTL_KEY_NAME : option string;
  HISTORY_TABLE_TTL_DURATION : option string
}.

(** [new DynamoDbChatStorage(table, region, ttlKey, Number(ttlDuration))];
    the duration is kept as the text [Number] is applied to. *)
Record DynamoDbChatStorage : Type := mkStorage {
  tableName : option string;
  region : option string;
  ttlKey : option string;
  ttlDuration : option string
}.

Record GetParameterCommand : Type := mkGetParameter {
  Name : string;
  WithDecryption : bool
}.

(** [result.Parameter?.Value]: the reply's [Parameter] member (here [Param])
    and its [Value], each possibly absent. *)
Record SsmParameter : Type := mkSsmParameter { Value : option string }.
Record GetParameterResult : Type := mkGetParameterResult {
  Param : option SsmParameter
}.

Record SendMessageCommand : Type := mkSendMessage {
  QueueUrl : string;
  MessageBody : string
}.

Record SendMessageResult : Type := mkSendMessageResult {
  MessageId : option string
}.

Record SQSRecord : Type := mkRecord { messageId : string; body : string }.
Record SQSEvent : Type := mkEvent { Records : list SQSRecord }.

Record SQSLogger : Type := mkLogger { loggerQueue : option string; loggerTag : string }.
Record AnthropicClassifier : Type := mkClassifier { classifierKey : option string }.

Record OrchestratorConfig : Type := mkConfig {
  LOG_AGENT_CHAT : bool;
  LOG_CLASSIFIER_CHAT : bool;
  LOG_CLASSIFIER_RAW_OUTPUT : bool;
  LOG_CLASSIFIER_OUTPUT : bool;
  LOG_EXECUTION_TIMES : bool;
  MAX_MESSAGE_PAIRS_PER_AGENT : nat;
  USE_DEFAULT_AGENT_IF_NONE_IDENTIFIED : bool
}.

Record OrchestratorOptions : Type := mkOptions {
  classifier : AnthropicClassifier;
  storage : DynamoDbChatStorage;
  config : OrchestratorConfig;
  logger : SQSLogger
}.

Record HumanAgentOptions : Type := mkHumanAgent {
  agentName : string;
  agentDescription : string;
  saveChat : bool;
  agentQueue : option string
}.

(** The agents registered by this module: two imported from [./agents] and
    the [HumanAgent] built in [initializeOrchestrator]. *)
Inductive Agent : Type :=
| orderManagementAgent
| productInfoAgent
| HumanAgent (opts : HumanAgentOptions).

(** A [MultiAgentOrchestrator] object: the options it was built with and the
    agents added so far, oldest first. *)
Record MultiAgentOrchestrator : Type := mkOrchestrator {
  options : OrchestratorOptions;
  agents : list Agent
}.

(** What [routeRequest] resolves with, an object of the orchestrator
    library: [metadata] and [output] show what [JSON.stringify] reads of
    them. *)
Record AgentResponse : Type := mkResponse {
  metadata : value;
  output : value;
  streaming : bool
}.

Record Summary : Type := mkSummary { message : string }.

(** ** What a run does that can be seen from outside *)

(** The lines logged.  Line 101 writes the event, which the host read from
    JSON; lines 122 and 129 write text made from values that need not convert
    to text, so they carry the text. *)
Inductive logLine : Type :=
| ReceivedEvent (event : SQSEvent)                         (* line 101 *)
| CallingOrchestrator (sessionId msg : string)             (* line 122 *)
| OrchestratorResponse (text : string)                     (* line 129 *)
| MessageSent (id : option string).                        (* line 144 *)

Inductive errorLine : Type :=
| ErrorRetrievingApiKey (error : exn)                      (* line 48 *)
| ErrorProcessingRecord (error : exn).                     (* line 146 *)

(** The calls that leave the process or change the orchestrator.  The
    module never calls [process.exit]; the constructor is there so that a
    statement can say so. *)
Inductive effect : Type :=
| console_log (l : logLine)
| console_error (l : errorLine)
| new_MultiAgentOrchestrator (opts : OrchestratorOptions)
| addAgent (a : Agent)
| ssm_send (cmd : GetParameterCommand)
| routeRequest (o : MultiAgentOrchestrator) (userInput userId sessionId : value)
| sqs_send (cmd : SendMessageCommand)
| process_exit (code : nat).

(** ** Module-level variables (lines 17, 18, 97)

    [P] is what a variable of type [Promise<MultiAgentOrchestrator>] holds;
    each semantics chooses it. *)
Record Vars (P : Type) : Type := mkVars {
  apiKey : option string;
  orchestrator : option MultiAgentOrchestrator;
  orchestratorPromise : option P
}.

Arguments mkVars {P} _ _ _.

Definition set_apiKey {P : Type} (k : option string) (g : Vars P) : Vars P :=
  mkVars k (orchestrator g) (orchestratorPromise g).
Definition set_orchestrator {P : Type} (o : option MultiAgentOrchestrator) (g : Vars P) : Vars P :=
  mkVars (apiKey g) o (orchestratorPromise g).
Definition set_orchestratorPromise {P : Type} (p : option P) (g : Vars P) : Vars P :=
  mkVars (apiKey g) (orchestrator g) p.

(** ** Asynchronous code as a tree of operations *)

(** One node per thing an [async] function can do next.  The three [Await_]
    nodes call a service and suspend until it settles; [Tick] is the
    suspension of awaiting the result of a nested [async] function;
    [CallAsync] calls an [async] function without awaiting it, which runs its
    body up to its first suspension and hands back the promise;
    [AwaitPromise] awaits such a promise. *)
Inductive async (P A : Type) : Type :=
| Ret (a : A)
| Throw (e : exn)
| Do (e : effect) (k : async P A)
| Read (k : Vars P -> async P A)
| Update (f : Vars P -> Vars P) (k : async P A)
| Await_ssm (cmd : GetParameterCommand) (k : exn + GetParameterResult -> async P A)
| Await_route (o : MultiAgentOrchestrator) (userInput userId sessionId : value)
    (k : exn + AgentResponse -> async P A)
| Await_sqs (cmd : SendMessageCommand) (k : exn + SendMessageResult -> async P A)
| Tick (k : async P A)
| CallAsync (body : async P MultiAgentOrchestrator) (k : P -> async P A)
| AwaitPromise (p : P) (k : exn + MultiAgentOrchestrator -> async P A).

Arguments Ret {P A} _.
Arguments Throw {P A} _.
Arguments Do {P A} _ _.
Arguments Read {P A} _.
Arguments Update {P A} _ _.
Arguments Await_ssm {P A} _ _.
Arguments Await_route {P A} _ _ _ _ _.
Arguments Await_sqs {P A} _ _.
Arguments Tick {P A} _.
Arguments CallAsync {P A} _ _.
Arguments AwaitPromise {P A} _ _.

Fixpoint bind {P A B : Type} (t : async P A) (f : A -> async P B) : async P B :=
  match t with
  | Ret a => f a
  | Throw e => Throw e
  | Do e k => Do e (bind k f)
  | Read k => Read (fun g => bind (k g) f)
  | Update u k => Update u (bind k f)
  | Await_ssm cmd k => Await_ssm cmd (fun r => bind (k r) f)
  | Await_route o m u s k => Await_route o m u s (fun r => bind (k r) f)
  | Await_sqs cmd k => Await_sqs cmd (fun r => bind (k r) f)
  | Tick k => Tick (bind k f)
  | CallAsync b k => CallAsync b (fun p => bind (k p) f)
  | AwaitPromise p k => AwaitPromise p (fun r => bind (k r) f)
  end.

(** [try { t } catch (error) { h error }] *)
Fixpoint tryCatch {P A : Type} (t : async P A) (h : exn -> async P A) : async P A :=
  match t with
  | Ret a => Ret a
  | Throw e => h e
  | Do e k => Do e (tryCatch k h)
  | Read k => Read (fun g => tryCatch (k g) h)
  | Update u k => Update u (tryCatch k h)
  | Await_ssm cmd k => Await_ssm cmd (fun r => tryCatch (k r) h)
  | Await_route o m u s k => Await_route o m u s (fun r => tryCatch (k r) h)
  | Await_sqs cmd k => Await_sqs cmd (fun r => tryCatch (k r) h)
  | Tick k => Tick (tryCatch k h)
  | CallAsync b k => CallAsync b (fun p => tryCatch (k p) h)
  | AwaitPromise p k => AwaitPromise p (fun r => tryCatch (k r) h)
  end.

(** [for (const x of xs) { body x }]: an exception leaving the body ends the
    loop. *)
Fixpoint forOf {P X : Type} (xs : list X) (body : X -> async P unit) : async P unit :=
  match xs with
  | [] => Ret tt
  | x :: rest => bind (body x) (fun _ => forOf rest body)
  end.

Declare Scope async_scope.
Delimit Scope async_scope with async.
Notation "x <- t ;; k" := (bind t (fun x => k))
  (at level 61, t at next level, right associativity) : async_scope.
Notation "t ;; k" := (bind t (fun _ => k))
  (at level 61, right associativity) : async_scope.
Local Open Scope async_scope.

(** A settled result used as a statement: return it or throw it. *)
Definition settle {P A : Type} (r : exn + A) : async P A :=
  match r with
  | inl e => Throw e
  | inr a => Ret a
  end.

Definition do_ {P : Type} (e : effect) : async P unit := Do e (Ret tt).
Definition read {P : Type} : async P (Vars P) := Read (fun g => Ret g).
Definition update {P : Type} (f : Vars P -> Vars P) : async P unit := Update f (Ret tt).

(** [await f()] for a nested [async] function [f]: its body, then one
    suspension before the caller goes on with the result or the exception. *)
Definition awaitCall {P A : Type} (body : async P A) : async P A :=
  tryCatch (a <- body ;; Tick (Ret a)) (fun e => Tick (Throw e)).

(** The template literal [`Processed ${n} messages`] for a length. *)
Definition decimal (n : nat) : string := NilZero.string_of_uint (Nat.to_uint n).

(** ** The module, function by function *)

Section Code.

(** What holds a promise of the orchestrator. *)
Variable P : Type.
(** [process.env], which the module only reads. *)
Variable env : Env.
(** The engine's [JSON.parse] (an exception for text that is not JSON) and
    [JSON.stringify] (an exception for an object it cannot write, such as one
    that holds a cycle; what the library hands out need not be plain
    data). *)
Variable JSON_parse : string -> exn + value.
Variable JSON_stringify : value -> exn + string.

(** Lines 20-22: the guard run when the module is loaded. *)
Definition moduleGuard : exn + unit :=
  match nonEmpty (QUEUE_URL env) with
  | None => inl (Error "QUEUE_URL not set")
  | Some _ => inr tt
  end.

(** Lines 24-29, the constant [storage]. *)
Definition moduleStorage : DynamoDbChatStorage :=
  mkStorage (HISTORY_TABLE_NAME env) (AWS_REGION env)
            (HISTORY_TABLE_TTL_KEY_NAME env) (HISTORY_TABLE_TTL_DURATION env).

(** Lines 17, 18 and 97: all three variables start as [null]. *)
Definition moduleVars : Vars P := mkVars None None None.

(** Lines 34-37. *)
Definition getParameterCommand : GetParameterCommand :=
  mkGetParameter "/anthropic/apiKey" true.

(** Lines 32-51. *)
Definition getApiKeyFromSSM : async P string :=
  tryCatch
    (Await_ssm getParameterCommand (fun settled =>
     result <- settle settled ;;
     let retrievedApiKey :=
       match Param result with Some p => Value p | None => None end in
     match nonEmpty retrievedApiKey with
     | None => Throw (Error "API key not found in SSM")
     | Some key => Ret key
     end))
    (fun error =>
       do_ (console_error (ErrorRetrievingApiKey error)) ;;
       Throw (Error "Failed to retrieve API key")).

(** Lines 66-74. *)
Definition orchestratorConfig : OrchestratorConfig :=
  {| LOG_AGENT_CHAT := true;
     LOG_CLASSIFIER_CHAT := true;
     LOG_CLASSIFIER_RAW_OUTPUT := true;
     LOG_CLASSIFIER_OUTPUT := true;
     LOG_EXECUTION_TIMES := true;
     MAX_MESSAGE_PAIRS_PER_AGENT := 10;
     USE_DEFAULT_AGENT_IF_NONE_IDENTIFIED := false |}.

(** Lines 61-76: the options object, given the value of [apiKey] read at
    line 64. *)
Definition orchestratorOptions (key : option string) : OrchestratorOptions :=
  let sqsLogger := mkLogger (QUEUE_URL env) "log" in
  mkOptions (mkClassifier key) moduleStorage orchestratorConfig sqsLogger.

(** Lines 78-83. *)
Definition humanAgent : Agent :=
  HumanAgent
    {| agentName := "Human Agent";
       agentDescription :=
         "Handles complex inquiries, complaints, or sensitive issues requiring human expertise.";
       saveChat := false;
       agentQueue := QUEUE_URL env |}.

(** [o.addAgent(a)], recorded, and stored back in the variable that refers
    to [o].  The constructors of lines 61-83 and [addAgent] belong to the
    orchestrator library; they are taken to return normally. *)
Definition registerAgent (o : MultiAgentOrchestrator) (a : Agent)
  : async P MultiAgentOrchestrator :=
  let o' := mkOrchestrator (options o) (agents o ++ [a]) in
  do_ (addAgent a) ;;
  update (set_orchestrator (Some o')) ;;
  Ret o'.

(** Lines 54-94.  The value returned is the object the variable
    [orchestrator] holds at line 93: the one found at line 60 or the one the
    block has just built. *)
Definition initializeOrchestrator : async P MultiAgentOrchestrator :=
  g <- read ;;
  match nonEmpty (apiKey g) with
  | None =>
      key <- awaitCall getApiKeyFromSSM ;;
      update (set_apiKey (Some key))
  | Some _ => Ret tt
  end ;;
  g <- read ;;
  match orchestrator g with
  | Some o => Ret o
  | None =>
      let opts := orchestratorOptions (apiKey g) in
      do_ (new_MultiAgentOrchestrator opts) ;;
      update (set_orchestrator (Some (mkOrchestrator opts []))) ;;
      o <- registerAgent (mkOrchestrator opts []) orderManagementAgent ;;
      o <- registerAgent o productInfoAgent ;;
      registerAgent o humanAgent
  end.

(** The response as [JSON.stringify] reads it at line 129. *)
Definition responseObject (orchestratorResponse : AgentResponse) : value :=
  VObj [("metadata", metadata orchestratorResponse);
        ("output", output orchestratorResponse);
        ("streaming", VBool (streaming orchestratorResponse))].

(** Lines 132-135. *)
Definition customerMessage (orchestratorResponse : AgentResponse) : value :=
  VObj [("destination", VStr "customer");
        ("message", output orchestratorResponse)].

(** Lines 118-144, the body of the [try] block for one record.  The
    template literal of line 122 converts [sessionId], then reads
    [body.message] and converts it; line 125 reads [body.message] again.  The
    constructor of line 138 belongs to the AWS SDK and is taken to return
    normally. *)
Definition recordBody (orchestrator : MultiAgentOrchestrator) (queueUrl : string)
    (record : SQSRecord) : async P unit :=
  body <- settle (JSON_parse (body record)) ;;
  sessionId <- settle (getProp body "sessionId") ;;
  sessionText <- settle (ToString sessionId) ;;
  logged <- settle (getProp body "message") ;;
  messageText <- settle (ToString logged) ;;
  do_ (console_log (CallingOrchestrator sessionText messageText)) ;;
  userInput <- settle (getProp body "message") ;;
  orchestratorResponse <-
    Await_route orchestrator userInput sessionId sessionId settle ;;
  responseText <- settle (JSON_stringify (responseObject orchestratorResponse)) ;;
  do_ (console_log (OrchestratorResponse responseText)) ;;
  messageBody <- settle (JSON_stringify (customerMessage orchestratorResponse)) ;;
  let command := mkSendMessage queueUrl messageBody in
  response <- Await_sqs command settle ;;
  do_ (console_log (MessageSent (MessageId response))).

(** Lines 117-148: the [try] with its [catch]. *)
Definition processRecord (orchestrator : MultiAgentOrchestrator) (queueUrl : string)
    (record : SQSRecord) : async P unit :=
  tryCatch (recordBody orchestrator queueUrl record)
           (fun error => do_ (console_error (ErrorProcessingRecord error))).

(** Lines 151-153. *)
Definition summary (event : SQSEvent) : Summary :=
  {| message := "Processed " ++ decimal (length (Records event)) ++ " messages" |}.

(** Lines 109-153: what the handler does once it holds the orchestrator. *)
Definition processBatch (orchestrator : MultiAgentOrchestrator) (event : SQSEvent)
  : async P Summary :=
  match nonEmpty (QUEUE_URL env) with
  | None => Throw (Error "QUEUE_URL environment variable is not set")
  | Some queueUrl =>
      forOf (Records event) (processRecord orchestrator queueUrl) ;;
      Ret (summary event)
  end.

(** Lines 99-154.  The promise awaited at line 107 is the one the variable
    [orchestratorPromise] holds: the one found at line 103 or the one stored
    at line 104. *)
Definition handler (event : SQSEvent) : async P Summary :=
  do_ (console_log (ReceivedEvent event)) ;;
  g <- read ;;
  p <- match orchestratorPromise g with
       | Some p => Ret p
       | None =>
           CallAsync initializeOrchestrator (fun p =>
             update (set_orchestratorPromise (Some p)) ;;
             Ret p)
       end ;;
  AwaitPromise p (fun settled =>
  orchestrator <- settle settled ;;
  processBatch orchestrator event).

End Code.

Arguments moduleVars {P}.
Arguments getApiKeyFromSSM {P}.
Arguments registerAgent {P} o a.
Arguments initializeOrchestrator {P} env.
Arguments recordBody {P} JSON_parse JSON_stringify orchestrator queueUrl record.
Arguments processRecord {P} JSON_parse JSON_stringify orchestrator queueUrl record.
Arguments processBatch {P} env JSON_parse JSON_stringify orchestrator event.
Arguments handler {P} env JSON_parse JSON_stringify event.

(** ** Reading a trace *)

Definition fetched (tr : list effect) : list GetParameterCommand :=
  flat_map (fun e => match e with ssm_send cmd => [cmd] | _ => [] end) tr.

Definition built (tr : list effect) : list OrchestratorOptions :=
  flat_map (fun e => match e with new_MultiAgentOrchestrator o => [o] | _ => [] end) tr.

Definition registered (tr : list effect) : list Agent :=
  flat_map (fun e => match e with addAgent a => [a] | _ => [] end) tr.

Definition routed (tr : list effect)
  : list (MultiAgentOrchestrator * (value * (value * value))) :=
  flat_map (fun e => match e with
                     | routeRequest o m u s => [(o, (m, (u, s)))]
                     | _ => []
                     end) tr.

Definition published (tr : list effect) : list SendMessageCommand :=
  flat_map (fun e => match e with sqs_send cmd => [cmd] | _ => [] end) tr.

Definition exits (tr : list effect) : list nat :=
  flat_map (fun e => match e with process_exit c => [c] | _ => [] end) tr.

(** How the handling of a record ended, as its last console line tells:
    line 144 after a publish, line 146 after an exception. *)
Inductive recordEnd : Type :=
| Sent (id : option string)
| Failed (error : exn).

Definition recordEnds (tr : list effect) : list recordEnd :=
  flat_map (fun e => match e with
                     | console_log (MessageSent id) => [Sent id]
                     | console_error (ErrorProcessingRecord error) => [Failed error]
                     | _ => []
                     end) tr.

(** ** Notions the statements use *)

(** The secret a reply of the parameter store carries, if it carries one:
    [result.Parameter?.Value]. *)
Definition yielded (reply : exn + GetParameterResult) : option string :=
  match reply with
  | inr result => match Param result with Some p => Value p | None => None end
  | inl _ => None
  end.

(** The error line 48 logs for a reply that gives no usable secret. *)
Definition fetchError (reply : exn + GetParameterResult) : exn :=
  match reply with
  | inl e => e
  | inr _ => Error "API key not found in SSM"
  end.

(** The member [k] of a parsed body, when the body is an object that has
    one. *)
Definition member (k : string) (b : value) : option value :=
  match b with
  | VObj fields => lookup k fields
  | _ => None
  end.

Definition orUndefined (x : option value) : value :=
  match x with
  | Some v => v
  | None => VUndefined
  end.

(** The message and the [sessionId] a record asks to have routed, when its
    text gets as far as line 124: it parses, both members can be read, and
    both can be written into the line logged at line 122. *)
Definition requested (JSON_parse : string -> exn + value) (record : SQSRecord)
  : option (value * value) :=
  match JSON_parse (body record) with
  | inr b =>
      match getProp b "sessionId", getProp b "message" with
      | inr sessionId, inr userInput =>
          match ToString sessionId, ToString userInput with
          | inr _, inr _ => Some (userInput, sessionId)
          | _, _ => None
          end
      | _, _ => None
      end
  | inl _ => None
  end.

(** The calls of [routeRequest] a batch asks for, in the order of its
    records: one for each record that gets as far as line 124, with its
    [sessionId] as user and as session. *)
Definition requests (JSON_parse : string -> exn + value) (o : MultiAgentOrchestrator)
    (records : list SQSRecord)
  : list (MultiAgentOrchestrator * (value * (value * value))) :=
  flat_map (fun record =>
              match requested JSON_parse record with
              | Some (userInput, sessionId) => [(o, (userInput, (sessionId, sessionId)))]
              | None => []
              end) records.

(** What lines 60-91 leave behind when they run with [apiKey] holding [key]:
    the orchestrator with its three agents, and the calls made. *)
Definition constructed (env : Env) (key : option string) : MultiAgentOrchestrator :=
  mkOrchestrator (orchestratorOptions env key)
                 [orderManagementAgent; productInfoAgent; humanAgent env].

Definition construction (env : Env) (key : option string) : list effect :=
  [new_MultiAgentOrchestrator (orchestratorOptions env key);
   addAgent orderManagementAgent; addAgent productInfoAgent; addAgent (humanAgent env)].

(** ** What each part of the module can do

    Three lists of the effects a run may contain, used to bound traces. *)

Section Effects.

Variable env : Env.
Variable JSON_parse : string -> exn + value.
Variable JSON_stringify : value -> exn + string.

(** What the handling of a record can do, and nothing else. *)
Inductive recordEffect (o : MultiAgentOrchestrator) (q : string) (record : SQSRecord)
  : effect -> Prop :=
| re_calling b sid m st mt :
    JSON_parse (body record) = inr b -> getProp b "sessionId" = inr sid ->
    getProp b "message" = inr m -> ToString sid = inr st -> ToString m = inr mt ->
    recordEffect o q record (console_log (CallingOrchestrator st mt))
| re_route b sid m st mt :
    JSON_parse (body record) = inr b -> getProp b "sessionId" = inr sid ->
    getProp b "message" = inr m -> ToString sid = inr st -> ToString m = inr mt ->
    recordEffect o q record (routeRequest o m sid sid)
| re_response resp text :
    JSON_stringify (responseObject resp) = inr text ->
    recordEffect o q record (console_log (OrchestratorResponse text))
| re_send resp text :
    JSON_stringify (customerMessage resp) = inr text ->
    recordEffect o q record (sqs_send (mkSendMessage q text))
| re_sent id :
    recordEffect o q record (console_log (MessageSent id))
| re_error e :
    recordEffect o q record (console_error (ErrorProcessingRecord e)).

(** What obtaining the orchestrator can do, and nothing else. *)
Inductive initEffect : effect -> Prop :=
| ie_fetch : initEffect (ssm_send getParameterCommand)
| ie_error e : initEffect (console_error (ErrorRetrievingApiKey e))
| ie_new key : initEffect (new_MultiAgentOrchestrator (orchestratorOptions env key))
| ie_add a :
    In a [orderManagementAgent; productInfoAgent; humanAgent env] ->
    initEffect (addAgent a).

(** What a handler invocation can do, and nothing else. *)
Inductive handlerEffect (event : SQSEvent) : effect -> Prop :=
| he_received : handlerEffect event (console_log (ReceivedEvent event))
| he_init e : initEffect e -> handlerEffect event e
| he_record o q record e :
    nonEmpty (QUEUE_URL env) = Some q -> In record (Records event) ->
    recordEffect o q record e -> handlerEffect event e.

End Effects.

(** ** One call at a time *)

(** The services outside the process, as a state machine of any state type
    [W]: each call may change that state, and returns or throws. *)
Record Services (W : Type) : Type := mkServices {
  ssm_reply : GetParameterCommand -> W -> W * (exn + GetParameterResult);
  route_reply : MultiAgentOrchestrator -> value -> value -> value -> W ->
                W * (exn + AgentResponse);
  sqs_reply : SendMessageCommand -> W -> W * (exn + SendMessageResult)
}.

Module Seq.

(** When each call runs to completion before the next one starts, a promise
    is known by how it settled. *)
Definition promise : Type := (exn + MultiAgentOrchestrator)%type.

(** The outcome of a run: the variables and the services afterwards, what
    was done, in order, and the value returned or the exception thrown. *)
Record Run (W A : Type) : Type := mkRun {
  vars : Vars promise;
  world : W;
  trace : list effect;
  result : exn + A
}.

Arguments mkRun {W A} _ _ _ _.

Definition did {W A : Type} (e : effect) (r : Run W A) : Run W A :=
  mkRun (vars r) (world r) (e :: trace r) (result r).

Definition after {W A : Type} (tr : list effect) (r : Run W A) : Run W A :=
  mkRun (vars r) (world r) (tr ++ trace r) (result r).

(** A run followed by another that uses its value, unless it threw. *)
Definition andThen {W A B : Type} (r : Run W A)
    (f : A -> Vars promise -> W -> Run W B) : Run W B :=
  match result r with
  | inl e => mkRun (vars r) (world r) (trace r) (inl e)
  | inr a => after (trace r) (f a (vars r) (world r))
  end.

(** A [try] block followed by its handler when it threw. *)
Definition orElse {W A : Type} (r : Run W A)
    (h : exn -> Vars promise -> W -> Run W A) : Run W A :=
  match result r with
  | inl e => after (trace r) (h e (vars r) (world r))
  | inr _ => r
  end.

Section Run.

Variable W : Type.
Variable S : Services W.

Fixpoint run {A : Type} (t : async promise A) (g : Vars promise) (w : W) : Run W A :=
  match t with
  | Ret a => mkRun g w [] (inr a)
  | Throw e => mkRun g w [] (inl e)
  | Do e k => did e (run k g w)
  | Read k => run (k g) g w
  | Update f k => run k (f g) w
  | Await_ssm cmd k =>
      let (w', r) := ssm_reply S cmd w in
      did (ssm_send cmd) (run (k r) g w')
  | Await_route o m u s k =>
      let (w', r) := route_reply S o m u s w in
      did (routeRequest o m u s) (run (k r) g w')
  | Await_sqs cmd k =>
      let (w', r) := sqs_reply S cmd w in
      did (sqs_send cmd) (run (k r) g w')
  | Tick k => run k g w
  | CallAsync b k =>
      let rb := run b g w in
      after (trace rb) (run (k (result rb)) (vars rb) (world rb))
  | AwaitPromise p k => run (k p) g w
  end.

Variable env : Env.
Variable JSON_parse : string -> exn + value.
Variable JSON_stringify : value -> exn + string.

(** Lines 60-93 on their own. *)
Definition build (g : Vars promise) (w : W) : Run W MultiAgentOrchestrator :=
  match orchestrator g with
  | Some o => mkRun g w [] (inr o)
  | None =>
      mkRun (set_orchestrator (Some (constructed env (apiKey g))) g) w
            (construction env (apiKey g)) (inr (constructed env (apiKey g)))
  end.

(** Lines 103-107 of the handler: the promise it ends up awaiting, with what
    obtaining it did. *)
Definition initialization (g : Vars promise) (w : W) : Run W MultiAgentOrchestrator :=
  match orchestratorPromise g with
  | Some p => mkRun g w [] p
  | None =>
      let rb := run (initializeOrchestrator env) g w in
      mkRun (set_orchestratorPromise (Some (result rb)) (vars rb))
            (world rb) (trace rb) (result rb)
  end.

(** The [try] blocks of the records of a batch, each run from where the
    handling of the record before it ended, whatever that one's result. *)
Fixpoint perRecord (o : MultiAgentOrchestrator) (queueUrl : string)
    (records : list SQSRecord) (g : Vars promise) (w : W) : list (Run W unit) :=
  match records with
  | [] => []
  | record :: rest =>
      let b := run (recordBody JSON_parse JSON_stringify o queueUrl record) g w in
      b :: perRecord o queueUrl rest (vars b) (world b)
  end.

(** What the [catch] block adds after a [try] block that ended with [r]. *)
Definition caught (r : exn + unit) : list effect :=
  match r with
  | inl error => [console_error (ErrorProcessingRecord error)]
  | inr _ => []
  end.

End Run.

End Seq.

(** ** The event loop: any number of invocations in one process *)

Module Loop.

(** A promise is the position of its state in the table of the promises
    created so far. *)
Definition promise : Type := nat.

Inductive promiseState : Type :=
| Pending
| Settled (r : exn + MultiAgentOrchestrator).

(** Where a piece of asynchronous code stands when it hands control back to
    the event loop: at one of its [await]s, with what it does when resumed,
    or at its end. *)
Inductive suspended (A : Type) : Type :=
| OnSsm (cmd : GetParameterCommand) (k : exn + GetParameterResult -> async promise A)
| OnRoute (o : MultiAgentOrchestrator) (userInput userId sessionId : value)
    (k : exn + AgentResponse -> async promise A)
| OnSqs (cmd : SendMessageCommand) (k : exn + SendMessageResult -> async promise A)
| OnTick (k : async promise A)
| OnPromise (p : promise) (k : exn + MultiAgentOrchestrator -> async promise A)
| Finished (r : exn + A).

Arguments OnSsm {A} _ _.
Arguments OnRoute {A} _ _ _ _ _.
Arguments OnSqs {A} _ _.
Arguments OnTick {A} _.
Arguments OnPromise {A} _ _.
Arguments Finished {A} _.

(** The calls in flight or finished: each call of [initializeOrchestrator]
    with the promise it settles, each invocation of [handler] with its
    event. *)
Inductive task : Type :=
| Initializing (p : promise) (at_ : suspended MultiAgentOrchestrator)
| Handling (event : SQSEvent) (at_ : suspended Summary).

Record process : Type := mkProcess {
  vars : Vars promise;
  promises : list promiseState;
  tasks : list task;
  trace : list effect
}.

(** A process whose module has just been loaded. *)
Definition fresh : process := mkProcess moduleVars [] [] [].

Definition emit (e : effect) (s : process) : process :=
  mkProcess (vars s) (promises s) (tasks s) (trace s ++ [e]).

Definition assign (f : Vars promise -> Vars promise) (s : process) : process :=
  mkProcess (f (vars s)) (promises s) (tasks s) (trace s).

Definition addPromise (s : process) : process :=
  mkProcess (vars s) (promises s ++ [Pending]) (tasks s) (trace s).

Definition addTask (t : task) (s : process) : process :=
  mkProcess (vars s) (promises s) (tasks s ++ [t]) (trace s).

Fixpoint replace {X : Type} (i : nat) (x : X) (l : list X) : list X :=
  match l, i with
  | [], _ => []
  | _ :: rest, 0 => x :: rest
  | y :: rest, S j => y :: replace j x rest
  end.

Definition setTask (i : nat) (t : task) (s : process) : process :=
  mkProcess (vars s) (promises s) (replace i t (tasks s)) (trace s).

(** A call of [initializeOrchestrator] that has reached its end settles its
    promise. *)
Definition park (p : promise) (at_ : suspended MultiAgentOrchestrator) (s : process)
  : process :=
  match at_ with
  | Finished r => mkProcess (vars s) (replace p (Settled r) (promises s)) (tasks s) (trace s)
  | _ => s
  end.

(** Run a piece of code until it suspends or ends; nothing else runs
    meanwhile.  A call to a service is issued when its [await] is reached.  A
    call of an [async] function creates its promise, runs the body up to its
    first suspension and leaves the rest as a task of its own. *)
Fixpoint sync {A : Type} (t : async promise A) (s : process) : process * suspended A :=
  match t with
  | Ret a => (s, Finished (inr a))
  | Throw e => (s, Finished (inl e))
  | Do e k => sync k (emit e s)
  | Read k => sync (k (vars s)) s
  | Update f k => sync k (assign f s)
  | Await_ssm cmd k => (emit (ssm_send cmd) s, OnSsm cmd k)
  | Await_route o m u i k => (emit (routeRequest o m u i) s, OnRoute o m u i k)
  | Await_sqs cmd k => (emit (sqs_send cmd) s, OnSqs cmd k)
  | Tick k => (s, OnTick k)
  | CallAsync b k =>
      let p := length (promises s) in
      let (s', at_) := sync b (addPromise s) in
      sync (k p) (park p at_ (addTask (Initializing p at_) s'))
  | AwaitPromise p k => (s, OnPromise p k)
  end.

(** How suspended code may be resumed in a process: a service call settles
    in any way, at any time; a tick passes; an awaited promise has settled. *)
Inductive wakes {A : Type} (s : process) : suspended A -> async promise A -> Prop :=
| wakes_ssm cmd k r : wakes s (OnSsm cmd k) (k r)
| wakes_route o m u i k r : wakes s (OnRoute o m u i k) (k r)
| wakes_sqs cmd k r : wakes s (OnSqs cmd k) (k r)
| wakes_tick k : wakes s (OnTick k) k
| wakes_promise p k r :
    nth_error (promises s) p = Some (Settled r) -> wakes s (OnPromise p k) (k r).

Section Steps.

Variable env : Env.
Variable JSON_parse : string -> exn + value.
Variable JSON_stringify : value -> exn + string.

(** The host invokes the handler: it runs up to its first suspension. *)
Definition invoke (event : SQSEvent) (s : process) : process :=
  let (s', at_) := sync (handler env JSON_parse JSON_stringify event) s in
  addTask (Handling event at_) s'.

(** Invocations begun one right after the other, each running up to its
    first suspension before the next begins. *)
Definition begun (events : list SQSEvent) (s : process) : process :=
  fold_left (fun s' event => invoke event s') events s.

Definition resumeHandling (i : nat) (event : SQSEvent)
    (t : async promise Summary) (s : process) : process :=
  let (s', at_) := sync t s in
  setTask i (Handling event at_) s'.

Definition resumeInitializing (i : nat) (p : promise)
    (t : async promise MultiAgentOrchestrator) (s : process) : process :=
  let (s', at_) := sync t s in
  park p at_ (setTask i (Initializing p at_) s').

(** One turn of the event loop. *)
Inductive step (s : process) : process -> Prop :=
| step_invoke event :
    step s (invoke event s)
| step_handling i event at_ t :
    nth_error (tasks s) i = Some (Handling event at_) ->
    wakes s at_ t ->
    step s (resumeHandling i event t s)
| step_initializing i p at_ t :
    nth_error (tasks s) i = Some (Initializing p at_) ->
    wakes s at_ t ->
    step s (resumeInitializing i p t s).

Inductive steps (s : process) : process -> Prop :=
| steps_none : steps s s
| steps_more s1 s2 : steps s s1 -> step s1 s2 -> steps s s2.

(** Two turns named for the examples: the parameter store replies [r] to
    the call task [i] waits for; the tick task [i] waits for passes.  Where
    task [i] is not waiting for that, nothing happens. *)
Definition ssmReplies (i : nat) (r : exn + GetParameterResult) (s : process) : process :=
  match nth_error (tasks s) i with
  | Some (Initializing p (OnSsm _ k)) => resumeInitializing i p (k r) s
  | _ => s
  end.

Definition tickPasses (i : nat) (s : process) : process :=
  match nth_error (tasks s) i with
  | Some (Initializing p (OnTick k)) => resumeInitializing i p k s
  | _ => s
  end.

(** Three more, for an invocation: the promise it waits for has settled;
    [routeRequest] settles with [r]; the publish settles with [r]. *)
Definition promiseSettled (i : nat) (s : process) : process :=
  match nth_error (tasks s) i with
  | Some (Handling event (OnPromise p k)) =>
      match nth_error (promises s) p with
      | Some (Settled r) => resumeHandling i event (k r) s
      | _ => s
      end
  | _ => s
  end.

Definition routeReplies (i : nat) (r : exn + AgentResponse) (s : process) : process :=
  match nth_error (tasks s) i with
  | Some (Handling event (OnRoute _ _ _ _ k)) => resumeHandling i event (k r) s
  | _ => s
  end.

Definition sqsReplies (i : nat) (r : exn + SendMessageResult) (s : process) : process :=
  match nth_error (tasks s) i with
  | Some (Handling event (OnSqs _ k)) => resumeHandling i event (k r) s
  | _ => s
  end.

End Steps.

(** What has happened in a process. *)
Definition initializations (s : process) : nat :=
  length (filter (fun t => match t with Initializing _ _ => true | _ => false end) (tasks s)).

Definition invocations (s : process) : nat :=
  length (filter (fun t => match t with Handling _ _ => true | _ => false end) (tasks s)).

(** The promises that suspended handler invocations are waiting for. *)
Definition awaited (s : process) : list promise :=
  flat_map (fun t => match t with
                     | Handling _ (OnPromise p _) => [p]
                     | _ => []
                     end) (tasks s).

(** *** Notions the event-loop statements use *)

(** Effects that neither fetch the key nor build or change an
    orchestrator. *)
Definition harmless (e : effect) : Prop :=
  match e with
  | console_log _ | console_error _ | routeRequest _ _ _ _ | sqs_send _ => True
  | _ => False
  end.

(** Code that only logs, routes and publishes: it assigns no variable,
    calls no [async] function, awaits no promise and fetches nothing. *)
Inductive quiet : forall A : Type, async promise A -> Prop :=
| quiet_Ret A (a : A) : quiet (Ret a)
| quiet_Throw A e : quiet (@Throw promise A e)
| quiet_Do A e (k : async promise A) : harmless e -> quiet k -> quiet (Do e k)
| quiet_Read A (k : Vars promise -> async promise A) :
    (forall g, quiet (k g)) -> quiet (Read k)
| quiet_route A o m u i (k : exn + AgentResponse -> async promise A) :
    (forall r, quiet (k r)) -> quiet (Await_route o m u i k)
| quiet_sqs A cmd (k : exn + SendMessageResult -> async promise A) :
    (forall r, quiet (k r)) -> quiet (Await_sqs cmd k)
| quiet_Tick A (k : async promise A) : quiet k -> quiet (Tick k).

Arguments quiet {A} _.

(** Suspended code that is quiet however it is resumed, and that waits, if
    for a promise, for the first one. *)
Definition quietAt {A : Type} (at_ : suspended A) : Prop :=
  match at_ with
  | OnSsm _ _ => False
  | OnRoute _ _ _ _ k => forall r, quiet (k r)
  | OnSqs _ k => forall r, quiet (k r)
  | OnTick k => quiet k
  | OnPromise p k => p = 0 /\ forall r, quiet (k r)
  | Finished _ => True
  end.

Definition quietTask (t : task) : Prop :=
  match t with
  | Handling _ at_ => quietAt at_
  | Initializing _ _ => False
  end.

(** The rest of [initializeOrchestrator] after the tick that follows the
    fetch: run where no orchestrator exists yet, it either throws and
    changes nothing, or stores a non-empty key and the orchestrator it builds
    with it. *)
Definition finishes (env : Env) (k : async promise MultiAgentOrchestrator) : Prop :=
  forall s, orchestrator (vars s) = None ->
    (exists e, sync k s = (s, Finished (inl e))) \/
    (exists key,
       nonEmpty (Some key) = Some key /\
       sync k s =
       (mkProcess (mkVars (Some key) (Some (constructed env (Some key)))
                          (orchestratorPromise (vars s)))
                  (promises s) (tasks s) (trace s ++ construction env (Some key)),
        Finished (inr (constructed env (Some key))))).

(** The rest of [initializeOrchestrator] once the parameter store has
    replied: it may log, then waits for the tick. *)
Definition fetching (env : Env)
    (k : exn + GetParameterResult -> async promise MultiAgentOrchestrator) : Prop :=
  forall r s, exists extra k',
    sync (k r) s = (mkProcess (vars s) (promises s) (tasks s) (trace s ++ extra), OnTick k')
    /\ Forall harmless extra /\ finishes env k'.

(** How far the one call of [initializeOrchestrator] has got, and what the
    process shows of it. *)
Definition stage (env : Env) (s : process) (at_ : suspended MultiAgentOrchestrator) : Prop :=
  match at_ with
  | OnSsm _ k =>
      fetching env k /\ promises s = [Pending] /\ built (trace s) = [] /\
      registered (trace s) = [] /\ apiKey (vars s) = None /\ orchestrator (vars s) = None
  | OnTick k =>
      finishes env k /\ promises s = [Pending] /\ built (trace s) = [] /\
      registered (trace s) = [] /\ apiKey (vars s) = None /\ orchestrator (vars s) = None
  | Finished (inl e) =>
      promises s = [Settled (inl e)] /\ built (trace s) = [] /\
      registered (trace s) = [] /\ apiKey (vars s) = None /\ orchestrator (vars s) = None
  | Finished (inr o) =>
      promises s = [Settled (inr o)] /\ built (trace s) = [options o] /\
      registered (trace s) = agents o /\ orchestrator (vars s) = Some o /\
      exists key, nonEmpty (Some key) = Some key /\ apiKey (vars s) = Some key /\
                  o = constructed env (Some key)
  | _ => False
  end.

(** The shape of every process in which the handler has been invoked. *)
Record serving (env : Env) (s : process) : Prop := mkServing {
  serving_promise : orchestratorPromise (vars s) = Some 0;
  serving_fetched : fetched (trace s) = [getParameterCommand];
  serving_tasks :
    exists at_ handlers,
      tasks s = Initializing 0 at_ :: handlers /\
      Forall quietTask handlers /\ handlers <> [] /\ stage env s at_
}.

(** What the handler does once the promise it awaits at line 107 has
    settled. *)
Definition handlerRest (env : Env) (JSON_parse : string -> exn + value)
    (JSON_stringify : value -> exn + string) (event : SQSEvent)
    (settled : exn + MultiAgentOrchestrator) : async promise Summary :=
  (orchestrator <- settle settled ;;
   processBatch env JSON_parse JSON_stringify orchestrator event)%async.

(** An invocation for [event] suspended at line 107, waiting for promise
    [p]. *)
Definition awaiting (env : Env) (JSON_parse : string -> exn + value)
    (JSON_stringify : value -> exn + string) (p : promise) (event : SQSEvent) : task :=
  Handling event (OnPromise p (handlerRest env JSON_parse JSON_stringify event)).

End Loop.

(** ** A small world to run the examples in *)

Module Demo.

Definition doubleQuote : string := String (Ascii.ascii_of_nat 34) EmptyString.

Definition quoted (s : string) : string := (doubleQuote ++ s ++ doubleQuote)%string.

(** The JSON text of a value whose strings need no escaping, which is all
    the examples use: an [undefined] member of an object is left out. *)
Fixpoint text (v : value) : string :=
  match v with
  | VUndefined => "null"
  | VNull => "null"
  | VBool true => "true"
  | VBool false => "false"
  | VNum n => n
  | VStr s => quoted s
  | VArr items => ("[" ++ String.concat "," (map text items) ++ "]")%string
  | VObj fields =>
      ("{" ++ String.concat ","
                (flat_map (fun '(k, x) => match x with
                                          | VUndefined => []
                                          | _ => [quoted k ++ ":" ++ text x]
                                          end) fields) ++ "}")%string
  end.

(** [JSON.stringify], which writes every value of the examples. *)
Definition JSON_stringify (v : value) : exn + string := inr (text v).

Definition orderQuestion : value :=
  VObj [("sessionId", VStr "abc"); ("message", VStr "Where is my order #123?")].

Definition unroutable : value :=
  VObj [("sessionId", VStr "xyz"); ("message", VStr "asdf")].

(** Two bodies with a member that no template literal can embed: an object
    with a member named [toString]. *)
Definition unprintableSession : value :=
  VObj [("sessionId", VObj [("toString", VNum "1")])].

Definition unprintableMessage : value :=
  VObj [("sessionId", VStr "s"); ("message", VObj [("toString", VNum "1")])].

(** The JSON texts the examples use, with the value each stands for. *)
Definition knownTexts : list (string * value) :=
  map (fun v => (text v, v))
      [orderQuestion; unroutable; VObj []; VNull; unprintableSession; unprintableMessage].

(** [JSON.parse] on the texts of [knownTexts] and on one text that is not
    JSON, a truncated object. *)
Definition truncated : string := ("{" ++ quoted "sessionId" ++ ":")%string.

Definition JSON_parse (text : string) : exn + value :=
  match lookup text knownTexts with
  | Some v => inr v
  | None => inl (mkExn "SyntaxError" "Unexpected end of JSON input")
  end.

Definition env : Env :=
  mkEnv (Some "https://sqs.example/delivery") (Some "history") (Some "eu-west-1")
        None None.

(** The services: the parameter store is down or up (and comes back after
    one failed call), the delivery queue likewise; the orchestrator answers
    every message but [asdf], for which it identifies no agent. *)
Record World : Type := mkWorld { ssmDown : bool; sqsDown : bool; storedKey : option string }.

Definition orderStatus : AgentResponse :=
  mkResponse VNull (VStr "Order #123 has shipped.") false.

Definition services : Services World :=
  {| ssm_reply := fun _ w =>
       (mkWorld false (sqsDown w) (storedKey w),
        if ssmDown w then inl (mkExn "ServiceUnavailable" "parameter store is down")
        else inr (mkGetParameterResult (Some (mkSsmParameter (storedKey w)))));
     route_reply := fun _ userInput _ _ w =>
       (w,
        match userInput with
        | VStr "asdf" => inl (Error "No agent identified")
        | _ => inr orderStatus
        end);
     sqs_reply := fun _ w =>
       (mkWorld (ssmDown w) false (storedKey w),
        if sqsDown w then inl (mkExn "ServiceUnavailable" "queue is down")
        else inr (mkSendMessageResult (Some "m-1"))) |}.

Definition allUp : World := mkWorld false false (Some "sk-demo").

Definition emptyKey : World := mkWorld false false (Some "").

Definition ssmOutage : World := mkWorld true false (Some "sk-demo").

Definition sqsOutage : World := mkWorld false true (Some "sk-demo").

Definition record_ (text : string) : SQSRecord := mkRecord "r" text.

(** Two records: a truncated text, then the order question. *)
Definition twoRecords : SQSEvent :=
  mkEvent [record_ truncated; record_ (text orderQuestion)].

Definition fourRecords : SQSEvent :=
  mkEvent [record_ truncated; record_ (text unroutable);
           record_ (text orderQuestion); record_ (text orderQuestion)].

(** The orchestrator a successful initialization builds in this world. *)
Definition someOrchestrator : MultiAgentOrchestrator := constructed env (Some "sk-demo").

(** The process after a first invocation during an outage of the parameter
    store. *)
Definition afterOutage : Seq.Run World Summary :=
  Seq.run services (handler env JSON_parse JSON_stringify twoRecords) moduleVars ssmOutage.

(** One invocation, then the reply of the parameter store and the tick
    after it: the key is cached and the orchestrator built. *)
Definition keyCached : Loop.process :=
  Loop.tickPasses 0
    (Loop.ssmReplies 0 (inr (mkGetParameterResult (Some (mkSsmParameter (Some "sk-demo")))))
       (Loop.invoke env JSON_parse JSON_stringify twoRecords Loop.fresh)).

(** Two invocations begun before the parameter store replies, a third
    begun between its reply and the turn in which the initialization goes
    on. *)
Definition threeSharing : Loop.process :=
  Loop.tickPasses 0
    (Loop.begun env JSON_parse JSON_stringify [fourRecords]
       (Loop.ssmReplies 0 (inr (mkGetParameterResult (Some (mkSsmParameter (Some "sk-demo")))))
          (Loop.begun env JSON_parse JSON_stringify [twoRecords; twoRecords] Loop.fresh))).

(** One invocation followed to its end in the event loop, the services
    replying as [services] does when all are up. *)
Definition oneInvocation : Loop.process :=
  Loop.sqsReplies 1 (inr (mkSendMessageResult (Some "m-1")))
    (Loop.routeReplies 1 (inr orderStatus)
       (Loop.promiseSettled 1 keyCached)).

End Demo.

(** ** Notions for what invocations share *)

Module Sharing.

Import Loop.

(** How the first promise has settled, if it has. *)
Definition settlement (s : process) : option (exn + MultiAgentOrchestrator) :=
  match nth_error (promises s) 0 with
  | Some (Settled r) => Some r
  | _ => None
  end.

(** An effect that respects a settlement: a [routeRequest] goes to the
    orchestrator the promise was fulfilled with. *)
Definition via (sd : option (exn + MultiAgentOrchestrator)) (e : effect) : Prop :=
  match e with
  | routeRequest o _ _ _ => sd = Some (inr o)
  | _ => True
  end.

(** The results an invocation for [event] can end with, given how the
    promise it awaited settled: the error of a rejection; after a
    fulfilment, the summary of its own batch, or the error of line 112 when
    QUEUE_URL is not set. *)
Definition answer (env : Env) (event : SQSEvent)
    (sd : option (exn + MultiAgentOrchestrator)) (r : exn + Summary) : Prop :=
  match r with
  | inr x =>
      x = summary event /\ nonEmpty (QUEUE_URL env) <> None /\ exists o, sd = Some (inr o)
  | inl e =>
      sd = Some (inl e) \/
      (e = Error "QUEUE_URL environment variable is not set" /\
       nonEmpty (QUEUE_URL env) = None /\ exists o, sd = Some (inr o))
  end.

(** Code all of whose effects satisfy [E] and all of whose results satisfy
    [Q], and which, like quiet code, assigns nothing, calls no [async]
    function, awaits no promise and fetches nothing. *)
Inductive confined (E : effect -> Prop)
  : forall A : Type, (exn + A -> Prop) -> async promise A -> Prop :=
| confined_Ret A (Q : exn + A -> Prop) a : Q (inr a) -> confined E Q (Ret a)
| confined_Throw A (Q : exn + A -> Prop) e : Q (inl e) -> confined E Q (Throw e)
| confined_Do A (Q : exn + A -> Prop) e k :
    E e -> confined E Q k -> confined E Q (Do e k)
| confined_Read A (Q : exn + A -> Prop) k :
    (forall g, confined E Q (k g)) -> confined E Q (Read k)
| confined_route A (Q : exn + A -> Prop) o m u i k :
    E (routeRequest o m u i) -> (forall r, confined E Q (k r)) ->
    confined E Q (Await_route o m u i k)
| confined_sqs A (Q : exn + A -> Prop) cmd k :
    E (sqs_send cmd) -> (forall r, confined E Q (k r)) -> confined E Q (Await_sqs cmd k)
| confined_Tick A (Q : exn + A -> Prop) k : confined E Q k -> confined E Q (Tick k).

Arguments confined E {A} Q _.

Definition confinedAt (E : effect -> Prop) {A : Type} (Q : exn + A -> Prop)
    (at_ : suspended A) : Prop :=
  match at_ with
  | OnRoute _ _ _ _ k => forall r, confined E Q (k r)
  | OnSqs _ k => forall r, confined E Q (k r)
  | OnTick k => confined E Q k
  | Finished r => Q r
  | OnSsm _ _ => False
  | OnPromise _ _ => False
  end.

Definition routeless (e : effect) : Prop :=
  match e with
  | routeRequest _ _ _ _ => False
  | _ => True
  end.

(** [s'] differs from [s] by its variables and by routeless effects
    only. *)
Definition routelessly (s s' : process) : Prop :=
  promises s' = promises s /\ tasks s' = tasks s /\
  exists extra, trace s' = trace s ++ extra /\ Forall routeless extra.

(** The rest of [initializeOrchestrator] after the tick: it runs to its end
    without routing anything. *)
Definition settles (k : async promise MultiAgentOrchestrator) : Prop :=
  forall s, exists s' r, sync k s = (s', Finished r) /\ routelessly s s'.

(** The rest of [initializeOrchestrator] once the parameter store has
    replied: it waits for the tick, having routed nothing. *)
Definition replying (k : exn + GetParameterResult -> async promise MultiAgentOrchestrator)
  : Prop :=
  forall r s, exists s' k', sync (k r) s = (s', OnTick k') /\ routelessly s s' /\ settles k'.

(** A task that respects the settlement [sd]: the initialization routes
    nothing; an invocation still waiting for the promise will respect
    whatever it settles as; one that is past line 107, or has ended,
    respects [sd]. *)
Definition respects (env : Env) (sd : option (exn + MultiAgentOrchestrator)) (t : task)
  : Prop :=
  match t with
  | Initializing _ (OnSsm _ k) => replying k
  | Initializing _ (OnTick k) => settles k
  | Initializing _ (Finished _) => True
  | Initializing _ _ => False
  | Handling event (OnPromise p k) =>
      p = 0 /\ forall r, confined (via (Some r)) (answer env event (Some r)) (k r)
  | Handling event at_ => confinedAt (via sd) (answer env event sd) at_
  end.

(** The shape of every process, as far as sharing goes. *)
Definition sharing (env : Env) (s : process) : Prop :=
  Forall (via (settlement s)) (trace s) /\
  Forall (respects env (settlement s)) (tasks s).

End Sharing.

Module DemoRuns.

(** An invocation during an outage of the parameter store, followed until
    the initialization has failed; then a second invocation, followed to
    its end. *)
Definition initializationFailed : Loop.process :=
  Loop.tickPasses 0
    (Loop.ssmReplies 0 (inl (mkExn "ServiceUnavailable" "parameter store is down"))
       (Loop.invoke Demo.env Demo.JSON_parse Demo.JSON_stringify Demo.twoRecords Loop.fresh)).

Definition secondAfterFailure : Loop.process :=
  Loop.promiseSettled 2
    (Loop.invoke Demo.env Demo.JSON_parse Demo.JSON_stringify Demo.fourRecords
       initializationFailed).

End DemoRuns.

(** * Lemmas and theorems *)

(** ** Traces *)

Lemma fetched_app (a b : list effect) : fetched (a ++ b) = fetched a ++ fetched b.
Proof. apply flat_map_app. Qed.

Lemma built_app (a b : list effect) : built (a ++ b) = built a ++ built b.
Proof. apply flat_map_app. Qed.

Lemma registered_app (a b : list effect) :
  registered (a ++ b) = registered a ++ registered b.
Proof. apply flat_map_app. Qed.

Lemma routed_app (a b : list effect) : routed (a ++ b) = routed a ++ routed b.
Proof. apply flat_map_app. Qed.

Lemma published_app (a b : list effect) :
  published (a ++ b) = published a ++ published b.
Proof. apply flat_map_app. Qed.

Lemma exits_app (a b : list effect) : exits (a ++ b) = exits a ++ exits b.
Proof. apply flat_map_app. Qed.

Lemma recordEnds_app (a b : list effect) :
  recordEnds (a ++ b) = recordEnds a ++ recordEnds b.
Proof. apply flat_map_app. Qed.

(** Case analysis on everything the handling of one record depends on:
    the parse, the two reads and conversions, the reply of [routeRequest],
    the two serialisations and the reply of the queue. *)
Ltac record_cases S JSON_parse JSON_stringify o q record w :=
  let e := fresh "e" in
  destruct (JSON_parse (body record)) as [e|?b] eqn:?Hb;
    [|destruct (getProp b "sessionId") as [e|?sid] eqn:?Hs;
      [|destruct (ToString sid) as [e|?st] eqn:?Hst;
        [|destruct (getProp b "message") as [e|?m] eqn:?Hm;
          [|destruct (ToString m) as [e|?mt] eqn:?Hmt;
            [|destruct (route_reply S o m sid sid w) as [?w1 [e|?resp]] eqn:?Hroute;
              [|destruct (JSON_stringify (responseObject resp)) as [e|?rt] eqn:?Hrt;
                [|destruct (JSON_stringify (customerMessage resp)) as [e|?payload] eqn:?Hpay;
                  [|cbn zeta;
                    destruct (sqs_reply S (mkSendMessage q payload) w1)
                      as [?w2 [e|?sent]] eqn:?Hsend]]]]]]]].

(** ** One call at a time *)

Module OneCall.

Import Seq.

Section Facts.

Variable W : Type.
Variable S : Services W.

Lemma run_bind (A B : Type) (t : async promise A) (f : A -> async promise B) g w :
  run S (bind t f) g w = andThen (run S t g w) (fun a => run S (f a)).
Proof.
  revert B f g w.
  induction t as [A a|A e|A e k IH|A k IH|A u k IH|A cmd k IH|A o m u i k IH
                 |A cmd k IH|A k IH|A b IHb k IH|A p k IH]; intros B f g w; cbn.
  - unfold andThen, after; cbn. now destruct (run S (f a) g w).
  - reflexivity.
  - rewrite IH. unfold andThen, did, after; cbn.
    now destruct (result (run S k g w)).
  - apply IH.
  - apply IH.
  - destruct (ssm_reply S cmd w) as [w' r]. rewrite IH.
    unfold andThen, did, after; cbn. now destruct (result (run S (k r) g w')).
  - destruct (route_reply S o m u i w) as [w' r]. rewrite IH.
    unfold andThen, did, after; cbn. now destruct (result (run S (k r) g w')).
  - destruct (sqs_reply S cmd w) as [w' r]. rewrite IH.
    unfold andThen, did, after; cbn. now destruct (result (run S (k r) g w')).
  - apply IH.
  - rewrite IH. unfold andThen, after; cbn.
    destruct (result (run S (k _) _ _)); cbn; [reflexivity|].
    now rewrite app_assoc.
  - apply IH.
Qed.

Lemma run_tryCatch (A : Type) (t : async promise A) (h : exn -> async promise A) g w :
  run S (tryCatch t h) g w = orElse (run S t g w) (fun e => run S (h e)).
Proof.
  revert h g w.
  induction t as [A a|A e|A e k IH|A k IH|A u k IH|A cmd k IH|A o m u i k IH
                 |A cmd k IH|A k IH|A b IHb k IH|A p k IH]; intros h g w; cbn.
  - reflexivity.
  - unfold orElse, after; cbn. now destruct (run S (h e) g w).
  - rewrite IH. unfold orElse, did, after; cbn.
    destruct (result (run S k g w)) eqn:E; cbn; now rewrite ?E.
  - apply IH.
  - apply IH.
  - destruct (ssm_reply S cmd w) as [w' r]. rewrite IH.
    unfold orElse, did, after; cbn.
    destruct (result (run S (k r) g w')) eqn:E; cbn; now rewrite ?E.
  - destruct (route_reply S o m u i w) as [w' r]. rewrite IH.
    unfold orElse, did, after; cbn.
    destruct (result (run S (k r) g w')) eqn:E; cbn; now rewrite ?E.
  - destruct (sqs_reply S cmd w) as [w' r]. rewrite IH.
    unfold orElse, did, after; cbn.
    destruct (result (run S (k r) g w')) eqn:E; cbn; now rewrite ?E.
  - apply IH.
  - rewrite IH. unfold orElse, after; cbn.
    destruct (result (run S (k _) _ _)) eqn:E; cbn; rewrite ?E; [|reflexivity].
    now rewrite app_assoc.
  - apply IH.
Qed.

Lemma andThen_assoc (A B C : Type) (r : Run W A)
    (f : A -> Vars promise -> W -> Run W B) (h : B -> Vars promise -> W -> Run W C) :
  andThen (andThen r f) h = andThen r (fun a g w => andThen (f a g w) h).
Proof.
  unfold andThen, after. destruct (result r) as [e|a]; cbn; [reflexivity|].
  destruct (result (f a (vars r) (world r))); cbn; [reflexivity|].
  now rewrite app_assoc.
Qed.

Lemma andThen_ext (A B : Type) (r : Run W A) (f f' : A -> Vars promise -> W -> Run W B) :
  (forall a g w, f a g w = f' a g w) -> andThen r f = andThen r f'.
Proof.
  intros H. unfold andThen. destruct (result r); [reflexivity|]. now rewrite H.
Qed.

Lemma run_awaitCall (A : Type) (t : async promise A) g w :
  run S (awaitCall t) g w = run S t g w.
Proof.
  unfold awaitCall. rewrite run_tryCatch, run_bind.
  unfold orElse, andThen, after; cbn.
  destruct (run S t g w) as [g' w' tr [e|a]]; cbn; now rewrite app_nil_r.
Qed.

Variable env : Env.
Variable JSON_parse : string -> exn + value.
Variable JSON_stringify : value -> exn + string.

(** *** [getApiKeyFromSSM] and [initializeOrchestrator] *)

Lemma run_getApiKeyFromSSM g w :
  run S getApiKeyFromSSM g w =
  let (w', reply) := ssm_reply S getParameterCommand w in
  match nonEmpty (yielded reply) with
  | Some key => mkRun g w' [ssm_send getParameterCommand] (inr key)
  | None =>
      mkRun g w'
            [ssm_send getParameterCommand;
             console_error (ErrorRetrievingApiKey (fetchError reply))]
            (inl (Error "Failed to retrieve API key"))
  end.
Proof.
  unfold getApiKeyFromSSM; cbn.
  destruct (ssm_reply S getParameterCommand w) as [w' [e|res]]; cbn; [reflexivity|].
  now destruct (nonEmpty _).
Qed.

Lemma run_initializeOrchestrator g w :
  run S (initializeOrchestrator env) g w =
  match nonEmpty (apiKey g) with
  | Some _ => build env g w
  | None =>
      andThen (run S getApiKeyFromSSM g w)
              (fun key g' w' => build env (set_apiKey (Some key) g') w')
  end.
Proof.
  unfold initializeOrchestrator. cbn.
  destruct (nonEmpty (apiKey g)); cbn.
  - unfold build. now destruct (orchestrator g).
  - unfold andThen.
    destruct (ssm_reply S getParameterCommand w) as [w' [e|res]]; cbn; [reflexivity|].
    destruct (nonEmpty _); cbn; [|reflexivity].
    unfold build; cbn. now destruct (orchestrator g).
Qed.

(** *** One record *)

Lemma run_recordBody o q record g w :
  run S (recordBody JSON_parse JSON_stringify o q record) g w =
  match JSON_parse (body record) with
  | inl e => mkRun g w [] (inl e)
  | inr b =>
  match getProp b "sessionId" with
  | inl e => mkRun g w [] (inl e)
  | inr sid =>
  match ToString sid with
  | inl e => mkRun g w [] (inl e)
  | inr st =>
  match getProp b "message" with
  | inl e => mkRun g w [] (inl e)
  | inr m =>
  match ToString m with
  | inl e => mkRun g w [] (inl e)
  | inr mt =>
  let calling := [console_log (CallingOrchestrator st mt); routeRequest o m sid sid] in
  let (w1, routing) := route_reply S o m sid sid w in
  match routing with
  | inl e => mkRun g w1 calling (inl e)
  | inr resp =>
  match JSON_stringify (responseObject resp) with
  | inl e => mkRun g w1 calling (inl e)
  | inr rt =>
  match JSON_stringify (customerMessage resp) with
  | inl e => mkRun g w1 (calling ++ [console_log (OrchestratorResponse rt)]) (inl e)
  | inr payload =>
  let cmd := mkSendMessage q payload in
  let (w2, sending) := sqs_reply S cmd w1 in
  mkRun g w2
        (calling ++ [console_log (OrchestratorResponse rt); sqs_send cmd]
         ++ match sending with
            | inl _ => []
            | inr sent => [console_log (MessageSent (MessageId sent))]
            end)
        (match sending with
         | inl e => inl e
         | inr _ => inr tt
         end)
  end end end end end end end end.
Proof.
  unfold recordBody.
  destruct (JSON_parse (body record)) as [e|b]; cbn; [reflexivity|].
  destruct (getProp b "sessionId") as [e|sid]; cbn; [reflexivity|].
  destruct (ToString sid) as [e|st]; cbn; [reflexivity|].
  destruct (getProp b "message") as [e|m]; cbn; [reflexivity|].
  destruct (ToString m) as [e|mt]; cbn; [reflexivity|].
  destruct (route_reply S o m sid sid w) as [w1 [e|resp]]; cbn; [reflexivity|].
  destruct (JSON_stringify (responseObject resp)) as [e|rt]; cbn; [reflexivity|].
  destruct (JSON_stringify (customerMessage resp)) as [e|payload]; cbn; [reflexivity|].
  now destruct (sqs_reply S _ w1) as [w2 [e|sent]].
Qed.

Lemma run_processRecord o q record g w :
  let b := run S (recordBody JSON_parse JSON_stringify o q record) g w in
  run S (processRecord JSON_parse JSON_stringify o q record) g w =
  mkRun (vars b) (world b) (trace b ++ caught (result b)) (inr tt).
Proof.
  cbn zeta. unfold processRecord. rewrite run_tryCatch. unfold orElse, caught.
  destruct (run S (recordBody _ _ o q record) g w) as [g' w' tr [e|[]]]; cbn;
    now rewrite ?app_nil_r.
Qed.

(** The handling of one record leaves exactly one closing line. *)
Lemma recordEnds_processRecord o q record g w :
  length (recordEnds (trace (run S (processRecord JSON_parse JSON_stringify o q record) g w))) = 1.
Proof.
  rewrite run_processRecord; cbn zeta. rewrite run_recordBody.
  record_cases S JSON_parse JSON_stringify o q record w; reflexivity.
Qed.

Lemma processRecord_effects o q record g w :
  Forall (recordEffect JSON_parse JSON_stringify o q record)
         (trace (run S (processRecord JSON_parse JSON_stringify o q record) g w)).
Proof.
  rewrite run_processRecord; cbn zeta. rewrite run_recordBody.
  record_cases S JSON_parse JSON_stringify o q record w; cbn;
    repeat first [apply Forall_nil | apply Forall_cons];
    first [eapply re_calling; eassumption | eapply re_route; eassumption
          | eapply re_response; eassumption | eapply re_send; eassumption
          | apply re_sent | apply re_error].
Qed.

(** *** The loop over the records *)

Lemma run_forOf_processRecord o q records g w :
  let loop := run S (forOf records (processRecord JSON_parse JSON_stringify o q)) g w in
  let each := perRecord S JSON_parse JSON_stringify o q records g w in
  result loop = inr tt /\
  trace loop = flat_map (fun b => trace b ++ caught (result b)) each.
Proof.
  cbn zeta. revert g w. induction records as [|record rest IH]; intros g w.
  - cbn. auto.
  - cbn [forOf perRecord]. rewrite run_bind, run_processRecord. cbn zeta.
    unfold andThen; cbn [result vars world trace after].
    set (b := run S (recordBody JSON_parse JSON_stringify o q record) g w).
    destruct (IH (vars b) (world b)) as (Hr & Ht).
    split; [exact Hr|]. cbn [flat_map]. now rewrite Ht.
Qed.

Lemma length_perRecord o q records g w :
  length (perRecord S JSON_parse JSON_stringify o q records g w) = length records.
Proof.
  revert g w. induction records as [|record rest IH]; intros g w; cbn; [reflexivity|].
  now rewrite IH.
Qed.

Lemma run_forOf_app o q before rest g w :
  run S (forOf (before ++ rest) (processRecord JSON_parse JSON_stringify o q)) g w =
  andThen (run S (forOf before (processRecord JSON_parse JSON_stringify o q)) g w)
          (fun _ => run S (forOf rest (processRecord JSON_parse JSON_stringify o q))).
Proof.
  revert g w. induction before as [|record before IH]; intros g w.
  - cbn. unfold andThen, after; cbn.
    now destruct (run S (forOf rest _) g w).
  - cbn [app forOf]. rewrite !run_bind, andThen_assoc.
    apply andThen_ext. intros _ g' w'. apply IH.
Qed.

Lemma forOf_effects o q records g w :
  Forall (fun e => exists record, In record records /\ recordEffect JSON_parse JSON_stringify o q record e)
         (trace (run S (forOf records (processRecord JSON_parse JSON_stringify o q)) g w)).
Proof.
  revert g w. induction records as [|record rest IH]; intros g w.
  - constructor.
  - cbn [forOf]. rewrite run_bind. unfold andThen.
    pose proof (processRecord_effects o q record g w) as Hrec.
    destruct (result (run S (processRecord _ _ o q record) g w)); cbn [trace after].
    + eapply Forall_impl; [|exact Hrec]. intros x Hx. exists record. split; [now left|exact Hx].
    + apply Forall_app. split.
      * eapply Forall_impl; [|exact Hrec]. intros x Hx. exists record.
        split; [now left|exact Hx].
      * eapply Forall_impl; [|apply IH]. intros x (r & Hin & Hx). exists r.
        split; [now right|exact Hx].
Qed.

Lemma recordEnds_forOf o q records g w :
  length (recordEnds (trace (run S (forOf records (processRecord JSON_parse JSON_stringify o q)) g w)))
  = length records.
Proof.
  revert g w. induction records as [|record rest IH]; intros g w; [reflexivity|].
  cbn [forOf]. rewrite run_bind. unfold andThen.
  pose proof (recordEnds_processRecord o q record g w) as Hone.
  rewrite run_processRecord in *. cbn zeta in *. cbn [result trace vars world after] in *.
  rewrite recordEnds_app, length_app, Hone, IH. reflexivity.
Qed.

(** *** The handler *)

Lemma run_handler event g w :
  run S (handler env JSON_parse JSON_stringify event) g w =
  did (console_log (ReceivedEvent event))
      (andThen (initialization S env g w)
               (fun o => run S (processBatch env JSON_parse JSON_stringify o event))).
Proof.
  unfold handler, initialization. cbn [bind do_ read run].
  f_equal.
  destruct (orchestratorPromise g) as [p|]; cbn [bind run].
  - unfold andThen; cbn [result vars world trace]. destruct p as [e|o]; cbn; [reflexivity|].
    unfold after. now destruct (run S _ g w).
  - cbn [update]. cbn [bind run]. unfold andThen; cbn [result vars world trace].
    destruct (result (run S (initializeOrchestrator env) g w)) as [e|o] eqn:E; cbn.
    + unfold after; cbn. now rewrite app_nil_r.
    + reflexivity.
Qed.

Lemma run_processBatch o event g w :
  run S (processBatch env JSON_parse JSON_stringify o event) g w =
  match nonEmpty (QUEUE_URL env) with
  | None => mkRun g w [] (inl (Error "QUEUE_URL environment variable is not set"))
  | Some q =>
      andThen (run S (forOf (Records event) (processRecord JSON_parse JSON_stringify o q)) g w)
              (fun _ g' w' => mkRun g' w' [] (inr (summary event)))
  end.
Proof.
  unfold processBatch. destruct (nonEmpty (QUEUE_URL env)); [|reflexivity].
  now rewrite run_bind.
Qed.

Lemma result_processBatch o event g w :
  result (run S (processBatch env JSON_parse JSON_stringify o event) g w) =
  match nonEmpty (QUEUE_URL env) with
  | None => inl (Error "QUEUE_URL environment variable is not set")
  | Some _ => inr (summary event)
  end.
Proof.
  rewrite run_processBatch. destruct (nonEmpty (QUEUE_URL env)) as [q|]; [|reflexivity].
  unfold andThen.
  destruct (run_forOf_processRecord o q (Records event) g w) as [Hr _].
  cbn zeta in Hr. now rewrite Hr.
Qed.

Lemma trace_processBatch o event g w q :
  nonEmpty (QUEUE_URL env) = Some q ->
  trace (run S (processBatch env JSON_parse JSON_stringify o event) g w) =
  trace (run S (forOf (Records event) (processRecord JSON_parse JSON_stringify o q)) g w).
Proof.
  intros Hq. rewrite run_processBatch, Hq. unfold andThen.
  destruct (run_forOf_processRecord o q (Records event) g w) as [Hr _].
  cbn zeta in Hr. rewrite Hr. cbn. now rewrite app_nil_r.
Qed.

Lemma result_handler event g w :
  result (run S (handler env JSON_parse JSON_stringify event) g w) =
  match result (initialization S env g w) with
  | inl e => inl e
  | inr _ =>
      match nonEmpty (QUEUE_URL env) with
      | None => inl (Error "QUEUE_URL environment variable is not set")
      | Some _ => inr (summary event)
      end
  end.
Proof.
  rewrite run_handler. cbn [did result]. unfold andThen.
  destruct (result (initialization S env g w)) as [e|o]; [reflexivity|].
  cbn [after result]. apply result_processBatch.
Qed.

(** A handler invocation that finds a rejected promise does nothing but
    log the event and throw the stored error. *)
Lemma rejected_promise_is_final event (g : Vars promise) w e :
  orchestratorPromise g = Some (inl e) ->
  run S (handler env JSON_parse JSON_stringify event) g w =
  mkRun g w [console_log (ReceivedEvent event)] (inl e).
Proof.
  intros Hp. rewrite run_handler. unfold initialization. now rewrite Hp.
Qed.

Lemma build_effects g (w : W) : Forall (initEffect env) (trace (build env g w)).
Proof.
  unfold build. destruct (orchestrator g); cbn; [constructor|].
  repeat apply Forall_cons; try apply Forall_nil;
    first [apply ie_new | apply ie_add; cbn; tauto].
Qed.

Lemma initializeOrchestrator_effects g w :
  Forall (initEffect env) (trace (run S (initializeOrchestrator env) g w)).
Proof.
  rewrite run_initializeOrchestrator.
  destruct (nonEmpty (apiKey g)); [apply build_effects|].
  rewrite run_getApiKeyFromSSM.
  destruct (ssm_reply S getParameterCommand w) as [w' reply].
  unfold andThen.
  destruct (nonEmpty (yielded reply)); cbn [result trace vars world after].
  - apply Forall_app. split; [repeat constructor|apply build_effects].
  - repeat constructor.
Qed.

Lemma initialization_effects g w : Forall (initEffect env) (trace (initialization S env g w)).
Proof.
  unfold initialization. destruct (orchestratorPromise g); cbn [trace]; [constructor|].
  apply initializeOrchestrator_effects.
Qed.

Lemma handler_effects event g w :
  Forall (handlerEffect env JSON_parse JSON_stringify event)
         (trace (run S (handler env JSON_parse JSON_stringify event) g w)).
Proof.
  rewrite run_handler. cbn [did trace]. apply Forall_cons; [apply he_received|].
  pose proof (initialization_effects g w) as Hinit.
  assert (Hinit' : Forall (handlerEffect env JSON_parse JSON_stringify event) (trace (initialization S env g w))).
  { eapply Forall_impl; [|exact Hinit]. intros e He. now apply he_init. }
  unfold andThen. destruct (result (initialization S env g w)) as [e|o]; [exact Hinit'|].
  cbn [after trace]. apply Forall_app. split; [exact Hinit'|].
  destruct (nonEmpty (QUEUE_URL env)) as [q|] eqn:Hq.
  - rewrite (trace_processBatch _ _ _ _ Hq).
    eapply Forall_impl; [|apply forOf_effects].
    intros e (record & Hin & He). eapply he_record; eassumption.
  - rewrite run_processBatch, Hq. constructor.
Qed.

Lemma Forall_routed (Q : effect -> Prop) tr :
  Forall Q tr ->
  Forall (fun call => Q (routeRequest (fst call) (fst (snd call))
                                      (fst (snd (snd call))) (snd (snd (snd call)))))
         (routed tr).
Proof.
  induction 1 as [|e tr He _ IH]; [constructor|].
  destruct e; cbn; try exact IH. now constructor.
Qed.

Lemma Forall_built (Q : effect -> Prop) tr :
  Forall Q tr -> Forall (fun opts => Q (new_MultiAgentOrchestrator opts)) (built tr).
Proof.
  induction 1 as [|e tr He _ IH]; [constructor|].
  destruct e; cbn; try exact IH. now constructor.
Qed.

Lemma exits_none (Q : effect -> Prop) tr :
  Forall Q tr -> (forall c, ~ Q (process_exit c)) -> exits tr = [].
Proof.
  intros HQ Hno. induction HQ as [|e tr He _ IH]; [reflexivity|].
  destruct e; cbn; try exact IH. now destruct (Hno code).
Qed.

Lemma getProp_present b k :
  b <> VNull -> b <> VUndefined -> getProp b k = inr (orUndefined (member k b)).
Proof.
  intros Hn Hu. destruct b; cbn; try reflexivity; congruence.
Qed.

(** *** A batch, split at one of its records *)

Lemma initEffect_routes_nothing tr : Forall (initEffect env) tr -> routed tr = [].
Proof.
  induction 1 as [|x tr Hx _ IH]; [reflexivity|]. destruct Hx; exact IH.
Qed.

Lemma initEffect_closes_nothing tr : Forall (initEffect env) tr -> recordEnds tr = [].
Proof.
  induction 1 as [|x tr Hx _ IH]; [reflexivity|]. destruct Hx; exact IH.
Qed.

Lemma state_processRecord o q record g w :
  vars (run S (processRecord JSON_parse JSON_stringify o q record) g w) =
    vars (run S (recordBody JSON_parse JSON_stringify o q record) g w) /\
  world (run S (processRecord JSON_parse JSON_stringify o q record) g w) =
    world (run S (recordBody JSON_parse JSON_stringify o q record) g w) /\
  result (run S (processRecord JSON_parse JSON_stringify o q record) g w) = inr tt.
Proof. now rewrite run_processRecord. Qed.

Lemma run_forOf_split o q before record rest g w :
  let reached := run S (forOf before (processRecord JSON_parse JSON_stringify o q)) g w in
  let this := run S (processRecord JSON_parse JSON_stringify o q record)
                  (vars reached) (world reached) in
  let later := run S (forOf rest (processRecord JSON_parse JSON_stringify o q))
                   (vars this) (world this) in
  trace (run S (forOf (before ++ record :: rest) (processRecord JSON_parse JSON_stringify o q)) g w)
  = trace reached ++ trace this ++ trace later.
Proof.
  cbn zeta. rewrite run_forOf_app.
  destruct (run_forOf_processRecord o q before g w) as [Hr _]. cbn zeta in Hr.
  unfold andThen at 1. rewrite Hr. cbn [after trace forOf]. f_equal.
  rewrite run_bind. unfold andThen.
  destruct (state_processRecord o q record
              (vars (run S (forOf before (processRecord JSON_parse JSON_stringify o q)) g w))
              (world (run S (forOf before (processRecord JSON_parse JSON_stringify o q)) g w)))
    as (_ & _ & ->).
  reflexivity.
Qed.

(** The trace of an invocation that obtained the orchestrator, around any
    one record of its batch: the event logged, what obtaining the promise
    did, the records before, this record, the records after. *)
Lemma trace_handler_split event before record rest g w o q :
  Records event = before ++ record :: rest ->
  nonEmpty (QUEUE_URL env) = Some q ->
  result (initialization S env g w) = inr o ->
  let start := initialization S env g w in
  let reached := run S (forOf before (processRecord JSON_parse JSON_stringify o q))
                     (vars start) (world start) in
  let this := run S (processRecord JSON_parse JSON_stringify o q record)
                  (vars reached) (world reached) in
  let later := run S (forOf rest (processRecord JSON_parse JSON_stringify o q))
                   (vars this) (world this) in
  trace (run S (handler env JSON_parse JSON_stringify event) g w) =
  console_log (ReceivedEvent event)
  :: trace start ++ trace reached ++ trace this ++ trace later.
Proof.
  intros Hsplit Hq Hinit. cbn zeta. rewrite run_handler. cbn [did trace]. f_equal.
  unfold andThen. rewrite Hinit. cbn [after trace]. f_equal.
  rewrite (trace_processBatch _ _ _ _ Hq), Hsplit. apply run_forOf_split.
Qed.

(** What the handling of a record routes: the call its text asks for, if it
    asks for one. *)
Lemma routed_processRecord o q record g w :
  routed (trace (run S (processRecord JSON_parse JSON_stringify o q record) g w)) =
  requests JSON_parse o [record].
Proof.
  rewrite run_processRecord; cbn zeta. rewrite run_recordBody.
  unfold requests, requested. cbn [flat_map].
  record_cases S JSON_parse JSON_stringify o q record w; try reflexivity.
  now destruct (getProp b "message").
Qed.

Lemma requests_app o before rest :
  requests JSON_parse o (before ++ rest) =
  requests JSON_parse o before ++ requests JSON_parse o rest.
Proof. apply flat_map_app. Qed.

Lemma routed_loop o q records g w :
  routed (trace (run S (forOf records (processRecord JSON_parse JSON_stringify o q)) g w)) =
  requests JSON_parse o records.
Proof.
  revert g w. induction records as [|record rest IH]; intros g w; [reflexivity|].
  cbn [forOf]. rewrite run_bind. unfold andThen.
  destruct (state_processRecord o q record g w) as (_ & _ & ->).
  cbn [after trace]. rewrite routed_app, routed_processRecord, IH.
  change (record :: rest) with ([record] ++ rest). now rewrite requests_app.
Qed.

Lemma requested_reached record b sid st m mt :
  JSON_parse (body record) = inr b ->
  getProp b "sessionId" = inr sid -> ToString sid = inr st ->
  getProp b "message" = inr m -> ToString m = inr mt ->
  requested JSON_parse record = Some (m, sid).
Proof.
  intros Hb Hs Hst Hm Hmt. unfold requested. now rewrite Hb, Hs, Hm, Hst, Hmt.
Qed.


(** The three places the handling of a record can fail at for reasons
    outside the process: the parse of its text, the call of [routeRequest],
    the publish.  Each makes the [try] block throw that exception. *)
Lemma recordBody_fails_at o q record g w e :
  JSON_parse (body record) = inl e \/
  (exists m sid,
     requested JSON_parse record = Some (m, sid) /\
     (snd (route_reply S o m sid sid w) = inl e \/
      exists resp payload,
        snd (route_reply S o m sid sid w) = inr resp /\
        (exists rt, JSON_stringify (responseObject resp) = inr rt) /\
        JSON_stringify (customerMessage resp) = inr payload /\
        snd (sqs_reply S (mkSendMessage q payload) (fst (route_reply S o m sid sid w)))
          = inl e)) ->
  result (run S (recordBody JSON_parse JSON_stringify o q record) g w) = inl e.
Proof.
  rewrite run_recordBody. unfold requested.
  intros [Hb|(m & sid & Hreq & Hfail)].
  { now rewrite Hb. }
  destruct (JSON_parse (body record)) as [e0|b]; [discriminate|].
  destruct (getProp b "sessionId") as [e0|sid']; [discriminate|].
  destruct (getProp b "message") as [e0|m'];
    [destruct (ToString sid'); discriminate|].
  destruct (ToString sid') as [e0|st]; [discriminate|].
  destruct (ToString m') as [e0|mt]; [discriminate|].
  injection Hreq as <- <-. cbn zeta.
  destruct (route_reply S o m' sid' sid' w) as [w1 routing]. cbn [fst snd] in Hfail.
  destruct Hfail as [->|(resp & payload & -> & (rt & Hrt) & Hpay & Hsend)]; [reflexivity|].
  rewrite Hrt, Hpay. cbn zeta.
  destruct (sqs_reply S (mkSendMessage q payload) w1) as [w2 sending].
  cbn [snd] in Hsend. now subst sending.
Qed.

(** *** The claims about one invocation *)

(** C1.  Take a batch and any one of its records.  The handler's result
    does not depend on the records: it is what the awaited initialization
    threw, or the summary of the batch.  When the invocation has obtained
    the orchestrator, its trace shows the records before, then the handling
    of this record, then the loop over every record after it, run from the
    state this record left.  The handling of this record is its [try] block
    followed, when the block threw, by the line the [catch] logs with that
    exception, and it ends normally; the block throws in particular when the
    parse of the body, the call of [routeRequest] or the publish throws, and
    it then throws that exception.  The loop over the records after it runs
    the [try] block of each of them, and the whole trace has one closing line
    per record of the batch. *)
Theorem record_failures_do_not_abort_batch event before record rest g w :
  Records event = before ++ record :: rest ->
  let start := initialization S env g w in
  let whole := run S (handler env JSON_parse JSON_stringify event) g w in
  result whole =
    match result start with
    | inl e => inl e
    | inr _ =>
        match nonEmpty (QUEUE_URL env) with
        | None => inl (Error "QUEUE_URL environment variable is not set")
        | Some _ => inr (summary event)
        end
    end /\
  forall o q,
    result start = inr o ->
    nonEmpty (QUEUE_URL env) = Some q ->
    let reached := run S (forOf before (processRecord JSON_parse JSON_stringify o q))
                       (vars start) (world start) in
    let attempt := run S (recordBody JSON_parse JSON_stringify o q record)
                       (vars reached) (world reached) in
    let this := run S (processRecord JSON_parse JSON_stringify o q record)
                    (vars reached) (world reached) in
    let later := run S (forOf rest (processRecord JSON_parse JSON_stringify o q))
                     (vars attempt) (world attempt) in
    let each := perRecord S JSON_parse JSON_stringify o q rest
                          (vars attempt) (world attempt) in
    trace whole =
      console_log (ReceivedEvent event)
      :: trace start ++ trace reached ++ trace this ++ trace later /\
    result this = inr tt /\
    trace this = trace attempt ++ caught (result attempt) /\
    (forall e, result attempt = inl e ->
       In (console_error (ErrorProcessingRecord e)) (trace whole)) /\
    (forall e,
       JSON_parse (body record) = inl e \/
       (exists m sid,
          requested JSON_parse record = Some (m, sid) /\
          (snd (route_reply S o m sid sid (world reached)) = inl e \/
           exists resp payload,
             snd (route_reply S o m sid sid (world reached)) = inr resp /\
             (exists rt, JSON_stringify (responseObject resp) = inr rt) /\
             JSON_stringify (customerMessage resp) = inr payload /\
             snd (sqs_reply S (mkSendMessage q payload)
                            (fst (route_reply S o m sid sid (world reached)))) = inl e)) ->
       result attempt = inl e) /\
    trace later = flat_map (fun b => trace b ++ caught (result b)) each /\
    length each = length rest /\
    length (recordEnds (trace whole)) = length (Records event) /\
    result whole = inr (summary event).
Proof.
  intros Hsplit. cbn zeta. split; [apply result_handler|].
  intros o q Hinit Hq.
  pose proof (@trace_handler_split event before record rest g w o q Hsplit Hq Hinit)
    as Hwhole.
  cbn zeta in Hwhole.
  set (reached := run S (forOf before (processRecord JSON_parse JSON_stringify o q))
                      (vars (initialization S env g w))
                      (world (initialization S env g w))) in *.
  destruct (state_processRecord o q record (vars reached) (world reached))
    as (Hv & Hw & Hr).
  rewrite Hv, Hw in Hwhole.
  assert (Hthis :
    trace (run S (processRecord JSON_parse JSON_stringify o q record)
               (vars reached) (world reached)) =
    trace (run S (recordBody JSON_parse JSON_stringify o q record)
               (vars reached) (world reached))
    ++ caught (result (run S (recordBody JSON_parse JSON_stringify o q record)
                           (vars reached) (world reached))))
    by now rewrite run_processRecord.
  split; [exact Hwhole|]. split; [exact Hr|]. split; [exact Hthis|].
  split; [|split; [apply recordBody_fails_at|split; [|split; [|split]]]].
  - intros e He. rewrite Hwhole, Hthis, He. cbn [caught]. right.
    apply in_or_app. right. apply in_or_app. right. apply in_or_app. left.
    apply in_or_app. right. now left.
  - apply run_forOf_processRecord.
  - apply length_perRecord.
  - rewrite run_handler. cbn [did trace recordEnds flat_map app].
    unfold andThen. rewrite Hinit. cbn [after trace].
    fold (recordEnds (trace (initialization S env g w) ++
            trace (run S (processBatch env JSON_parse JSON_stringify o event)
                       (vars (initialization S env g w)) (world (initialization S env g w))))).
    rewrite recordEnds_app, (initEffect_closes_nothing (initialization_effects g w)).
    cbn [app]. rewrite (trace_processBatch _ _ _ _ Hq). apply recordEnds_forOf.
  - rewrite result_handler, Hinit, Hq. reflexivity.
Qed.

(** C4.  In a process whose module loaded (QUEUE_URL is set), a handler
    invocation whose awaited initialization succeeded returns
    [{ message: "Processed K messages" }] with K the number of records of the
    batch, whatever happened to each record, and never calls
    [process.exit]. *)
Theorem handler_returns_processed_count event g w o :
  moduleGuard env = inr tt ->
  result (initialization S env g w) = inr o ->
  result (run S (handler env JSON_parse JSON_stringify event) g w) =
    inr (mkSummary ("Processed " ++ decimal (length (Records event)) ++ " messages"))
  /\ exits (trace (run S (handler env JSON_parse JSON_stringify event) g w)) = [].
Proof.
  intros Hguard Hinit. split.
  - rewrite result_handler, Hinit. unfold moduleGuard in Hguard.
    destruct (nonEmpty (QUEUE_URL env)); [reflexivity|discriminate].
  - eapply exits_none; [apply handler_effects|].
    intros c H. inversion H as [|e He|o' q' record e Hq Hin He]; subst.
    + inversion He.
    + inversion He.
Qed.


(** C7.  The calls of [routeRequest] a handler invocation makes are, in the
    order of the batch, one for each record whose text gets as far as line
    124 (it parses, [sessionId] and [message] can be read and written into
    the line logged at line 122), and no other; each passes the record's
    [message] and, as user identity and as history key alike, the record's
    [sessionId].  An invocation that did not obtain the orchestrator makes
    none.  So for a record that gets that far the call is made, once, after
    the calls of the records before and before those of the records
    after. *)
Theorem routeRequest_gets_sessionId_twice event g w :
  let whole := run S (handler env JSON_parse JSON_stringify event) g w in
  routed (trace whole) =
    match result (initialization S env g w), nonEmpty (QUEUE_URL env) with
    | inr o, Some _ =>
        flat_map (fun record =>
                    match requested JSON_parse record with
                    | Some (userInput, sessionId) =>
                        [(o, (userInput, (sessionId, sessionId)))]
                    | None => []
                    end) (Records event)
    | _, _ => []
    end /\
  Forall (fun call =>
            let userInput := fst (snd call) in
            let userId := fst (snd (snd call)) in
            let sessionId := snd (snd (snd call)) in
            userId = sessionId /\
            exists record b,
              In record (Records event) /\
              JSON_parse (body record) = inr b /\
              getProp b "sessionId" = inr sessionId /\
              getProp b "message" = inr userInput)
         (routed (trace whole)) /\
  forall o q before record rest b sid st m mt,
    result (initialization S env g w) = inr o ->
    nonEmpty (QUEUE_URL env) = Some q ->
    Records event = before ++ record :: rest ->
    JSON_parse (body record) = inr b ->
    getProp b "sessionId" = inr sid -> ToString sid = inr st ->
    getProp b "message" = inr m -> ToString m = inr mt ->
    routed (trace whole) =
      requests JSON_parse o before ++ [(o, (m, (sid, sid)))] ++ requests JSON_parse o rest.
Proof.
  cbn zeta.
  assert (Hrouted :
    routed (trace (run S (handler env JSON_parse JSON_stringify event) g w)) =
    match result (initialization S env g w), nonEmpty (QUEUE_URL env) with
    | inr o, Some _ => requests JSON_parse o (Records event)
    | _, _ => []
    end).
  { rewrite run_handler. cbn [did trace routed flat_map app].
    fold (routed (trace (andThen (initialization S env g w)
            (fun o => run S (processBatch env JSON_parse JSON_stringify o event))))).
    pose proof (initEffect_routes_nothing (initialization_effects g w)) as Hnone.
    unfold andThen. destruct (result (initialization S env g w)) as [e|o]; [exact Hnone|].
    cbn [after trace]. rewrite routed_app, Hnone. cbn [app].
    destruct (nonEmpty (QUEUE_URL env)) as [q|] eqn:Hq.
    - rewrite (trace_processBatch _ _ _ _ Hq). apply routed_loop.
    - rewrite run_processBatch, Hq. reflexivity. }
  split; [exact Hrouted|]. split.
  - eapply Forall_impl; [|apply Forall_routed, handler_effects].
    intros [o [m [u i]]] H. cbn [fst snd] in *.
    inversion H as [|e He|o' q record e Hq Hin He]; subst.
    + inversion He.
    + inversion He; subst. split; [reflexivity|].
      exists record. eexists. repeat split; eassumption.
  - intros o q before record rest b sid st m mt Hinit Hq Hsplit Hb Hs Hst Hm Hmt.
    rewrite Hrouted, Hinit, Hq, Hsplit, requests_app.
    change (record :: rest) with ([record] ++ rest). rewrite requests_app. f_equal. f_equal.
    unfold requests. cbn [flat_map].
    now rewrite (requested_reached _ Hb Hs Hst Hm Hmt).
Qed.

(** C8.  When [initializeOrchestrator] finds no orchestrator and succeeds,
    it has constructed exactly one, the one it returns, and that one's
    configuration has USE_DEFAULT_AGENT_IF_NONE_IDENTIFIED = false and
    MAX_MESSAGE_PAIRS_PER_AGENT = 10. *)
Theorem orchestrator_built_without_fallback_window_10 (g : Vars promise) w o :
  orchestrator g = None ->
  result (run S (initializeOrchestrator env) g w) = inr o ->
  built (trace (run S (initializeOrchestrator env) g w)) = [options o] /\
  USE_DEFAULT_AGENT_IF_NONE_IDENTIFIED (config (options o)) = false /\
  MAX_MESSAGE_PAIRS_PER_AGENT (config (options o)) = 10.
Proof.
  intros Hnone. rewrite run_initializeOrchestrator.
  destruct (nonEmpty (apiKey g)).
  - unfold build. rewrite Hnone. cbn. intros [= <-]. auto.
  - rewrite run_getApiKeyFromSSM.
    destruct (ssm_reply S getParameterCommand w) as [w' reply]. unfold andThen.
    destruct (nonEmpty (yielded reply)); cbn [result vars world trace after]; [|discriminate].
    unfold build. cbn. rewrite Hnone. cbn. intros [= <-]. auto.
Qed.

(** C9, as amended.  [getApiKeyFromSSM] issues one fetch.  When the reply
    carries a non-empty secret it returns that secret; in every other case
    (the fetch threw, the reply carries no value, or it carries the empty
    string) it logs the error and throws "Failed to retrieve API key". *)
Theorem getApiKeyFromSSM_returns_or_throws g w :
  let reply := snd (ssm_reply S getParameterCommand w) in
  let r := run S getApiKeyFromSSM g w in
  match nonEmpty (yielded reply) with
  | Some key =>
      result r = inr key /\ trace r = [ssm_send getParameterCommand]
  | None =>
      result r = inl (Error "Failed to retrieve API key") /\
      trace r = [ssm_send getParameterCommand;
                 console_error (ErrorRetrievingApiKey (fetchError reply))]
  end.
Proof.
  cbn zeta. rewrite run_getApiKeyFromSSM.
  destruct (ssm_reply S getParameterCommand w) as [w' reply]. cbn [snd].
  destruct (nonEmpty (yielded reply)); cbn; auto.
Qed.

(** C10, as amended.  Take an invocation that has obtained the
    orchestrator and a record of its batch whose body parses to anything but
    [null] (and [undefined], which [JSON.parse] never gives), and whose
    [sessionId] and [message], each [undefined] when the body lacks it, can
    be written into the line logged at line 122, as [undefined] always can.
    The loop does not reject it: [routeRequest] is called, once, with the
    [message] and, twice, the [sessionId]; and if the [try] block then fails,
    the exception comes from that call or from what follows it: the
    serialisation of the response or of the message, or the publish. *)
Theorem missing_fields_reach_routeRequest_as_undefined
    event before record rest g w o q b st mt :
  Records event = before ++ record :: rest ->
  nonEmpty (QUEUE_URL env) = Some q ->
  result (initialization S env g w) = inr o ->
  JSON_parse (body record) = inr b ->
  b <> VNull ->
  b <> VUndefined ->
  let sessionId := orUndefined (member "sessionId" b) in
  let userInput := orUndefined (member "message" b) in
  ToString sessionId = inr st ->
  ToString userInput = inr mt ->
  let start := initialization S env g w in
  let reached := run S (forOf before (processRecord JSON_parse JSON_stringify o q))
                     (vars start) (world start) in
  let attempt := run S (recordBody JSON_parse JSON_stringify o q record)
                     (vars reached) (world reached) in
  let this := run S (processRecord JSON_parse JSON_stringify o q record)
                  (vars reached) (world reached) in
  let later := run S (forOf rest (processRecord JSON_parse JSON_stringify o q))
                   (vars this) (world this) in
  let whole := run S (handler env JSON_parse JSON_stringify event) g w in
  let routing := route_reply S o userInput sessionId sessionId (world reached) in
  trace whole =
    console_log (ReceivedEvent event)
    :: trace start ++ trace reached ++ trace this ++ trace later /\
  (exists closing,
     trace this = console_log (CallingOrchestrator st mt)
                  :: routeRequest o userInput sessionId sessionId :: closing) /\
  routed (trace this) = [(o, (userInput, (sessionId, sessionId)))] /\
  (forall e, result attempt = inl e ->
     snd routing = inl e \/
     exists resp,
       snd routing = inr resp /\
       (JSON_stringify (responseObject resp) = inl e \/
        JSON_stringify (customerMessage resp) = inl e \/
        exists payload,
          JSON_stringify (customerMessage resp) = inr payload /\
          snd (sqs_reply S (mkSendMessage q payload) (fst routing)) = inl e)).
Proof.
  intros Hsplit Hq Hinit Hb Hn Hu sessionId userInput Hst Hmt.
  intros start reached attempt this later whole routing.
  split; [exact (@trace_handler_split event before record rest g w o q Hsplit Hq Hinit)|].
  assert (Hs : getProp b "sessionId" = inr sessionId) by now apply getProp_present.
  assert (Hm : getProp b "message" = inr userInput) by now apply getProp_present.
  split; [|split].
  - subst this. rewrite run_processRecord; cbn zeta.
    rewrite run_recordBody, Hb, Hs, Hst, Hm, Hmt. cbn zeta.
    destruct (route_reply S o userInput sessionId sessionId (world reached)) as [w1 [e|resp]];
      [eexists; reflexivity|].
    destruct (JSON_stringify (responseObject resp)); [eexists; reflexivity|].
    destruct (JSON_stringify (customerMessage resp)); [eexists; reflexivity|].
    cbn zeta. destruct (sqs_reply S _ w1) as [w2 [e|sent]]; eexists; reflexivity.
  - subst this. rewrite routed_processRecord. unfold requests. cbn [flat_map].
    now rewrite (requested_reached _ Hb Hs Hst Hm Hmt).
  - subst attempt routing. rewrite run_recordBody, Hb, Hs, Hst, Hm, Hmt. cbn zeta.
    destruct (route_reply S o userInput sessionId sessionId (world reached)) as [w1 [e1|resp]];
      cbn [fst snd].
    { cbn. intros e [= ->]. now left. }
    intros e He. right. exists resp. split; [reflexivity|].
    destruct (JSON_stringify (responseObject resp)) as [e2|rt].
    { cbn in He. injection He as ->. now left. }
    destruct (JSON_stringify (customerMessage resp)) as [e3|payload].
    { cbn in He. injection He as ->. right. now left. }
    right. right. exists payload. split; [reflexivity|].
    cbn zeta in He. destruct (sqs_reply S (mkSendMessage q payload) w1) as [w2 [e4|sent]];
      cbn in He |- *; congruence.
Qed.

End Facts.

(** *** The claims at concrete inputs *)

(** C4 at a concrete input: a fresh process, all services up, a batch of
    two records of which the first is not JSON. *)
Lemma handler_returns_processed_count_witness :
  result (run Demo.services
              (handler Demo.env Demo.JSON_parse Demo.JSON_stringify Demo.twoRecords)
              moduleVars Demo.allUp) =
    inr (mkSummary "Processed 2 messages")
  /\ exits (trace (run Demo.services
                       (handler Demo.env Demo.JSON_parse Demo.JSON_stringify Demo.twoRecords)
                       moduleVars Demo.allUp)) = [].
Proof.
  exact (@handler_returns_processed_count
           Demo.World Demo.services Demo.env Demo.JSON_parse Demo.JSON_stringify
           Demo.twoRecords moduleVars Demo.allUp (constructed Demo.env (Some "sk-demo"))
           eq_refl eq_refl).
Defined.

(** C1 at a concrete input: a batch of four records while the queue is
    down; the second record, for which no agent is identified, fails at
    [routeRequest].  Its error is logged, the two records after it are
    handled, and the batch is reported. *)
Lemma record_failures_do_not_abort_batch_witness :
  let whole := run Demo.services
                   (handler Demo.env Demo.JSON_parse Demo.JSON_stringify Demo.fourRecords)
                   moduleVars Demo.sqsOutage in
  In (console_error (ErrorProcessingRecord (Error "No agent identified"))) (trace whole) /\
  length (perRecord Demo.services Demo.JSON_parse Demo.JSON_stringify Demo.someOrchestrator
                    "https://sqs.example/delivery"
                    [Demo.record_ (Demo.text Demo.orderQuestion);
                     Demo.record_ (Demo.text Demo.orderQuestion)]
                    (mkVars (Some "sk-demo") (Some Demo.someOrchestrator)
                            (Some (inr Demo.someOrchestrator)))
                    Demo.sqsOutage) = 2 /\
  length (recordEnds (trace whole)) = 4 /\
  result whole = inr (mkSummary "Processed 4 messages").
Proof.
  destruct (@record_failures_do_not_abort_batch
              Demo.World Demo.services Demo.env Demo.JSON_parse Demo.JSON_stringify
              Demo.fourRecords [Demo.record_ Demo.truncated]
              (Demo.record_ (Demo.text Demo.unroutable))
              [Demo.record_ (Demo.text Demo.orderQuestion);
               Demo.record_ (Demo.text Demo.orderQuestion)]
              moduleVars Demo.sqsOutage eq_refl) as [_ H].
  destruct (H Demo.someOrchestrator "https://sqs.example/delivery" eq_refl eq_refl)
    as (_ & _ & _ & Hlogged & Hfails & _ & Heach & Hends & Hresult).
  refine (conj (Hlogged (Error "No agent identified") (Hfails _ _))
               (conj Heach (conj Hends Hresult))).
  right. exists (VStr "asdf"), (VStr "xyz"). split; [reflexivity|]. now left.
Defined.


(** C7 at a concrete input: of the two records of the batch, the first is
    not JSON and asks for nothing; the second gets its call, with its
    [sessionId] twice. *)
Lemma routeRequest_gets_sessionId_twice_witness :
  routed (trace (run Demo.services
                     (handler Demo.env Demo.JSON_parse Demo.JSON_stringify Demo.twoRecords)
                     moduleVars Demo.allUp)) =
  [] ++ [(Demo.someOrchestrator,
          (VStr "Where is my order #123?", (VStr "abc", VStr "abc")))] ++ [].
Proof.
  destruct (@routeRequest_gets_sessionId_twice
              Demo.World Demo.services Demo.env Demo.JSON_parse Demo.JSON_stringify
              Demo.twoRecords moduleVars Demo.allUp) as (_ & _ & H).
  exact (H Demo.someOrchestrator "https://sqs.example/delivery"
           [Demo.record_ Demo.truncated] (Demo.record_ (Demo.text Demo.orderQuestion)) []
           Demo.orderQuestion (VStr "abc") "abc"
           (VStr "Where is my order #123?") "Where is my order #123?"
           eq_refl eq_refl eq_refl eq_refl eq_refl eq_refl eq_refl eq_refl).
Defined.

(** C8 at a concrete input: the initialization of a fresh process. *)
Lemma orchestrator_built_without_fallback_window_10_witness :
  built (trace (run Demo.services (initializeOrchestrator Demo.env) moduleVars Demo.allUp)) =
    [options Demo.someOrchestrator] /\
  USE_DEFAULT_AGENT_IF_NONE_IDENTIFIED (config (options Demo.someOrchestrator)) = false /\
  MAX_MESSAGE_PAIRS_PER_AGENT (config (options Demo.someOrchestrator)) = 10.
Proof.
  exact (@orchestrator_built_without_fallback_window_10
           Demo.World Demo.services Demo.env moduleVars Demo.allUp Demo.someOrchestrator
           eq_refl eq_refl).
Defined.

(** C9, the claim as stated fails: the store yields a value, the empty
    string, and [getApiKeyFromSSM] throws instead of returning it. *)
Lemma getApiKeyFromSSM_throws_on_empty_value :
  yielded (snd (ssm_reply Demo.services getParameterCommand Demo.emptyKey)) = Some "" /\
  result (run Demo.services getApiKeyFromSSM moduleVars Demo.emptyKey) =
    inl (Error "Failed to retrieve API key").
Proof. split; reflexivity. Qed.

(** C10, the claim as stated fails.  The body [null] is valid JSON and has
    neither field, yet [routeRequest] is never called: the record fails in
    the loop itself, at the read of [body.sessionId].  The body
    [{"sessionId": {"toString": 1}}] is valid JSON and lacks [message], yet
    [routeRequest] is never called: the record fails in the loop itself, at
    the line logged at line 122, which cannot convert that [sessionId]. *)
Lemma valid_bodies_that_never_reach_routeRequest :
  let handling text :=
    trace (run Demo.services
               (handler Demo.env Demo.JSON_parse Demo.JSON_stringify
                        (mkEvent [Demo.record_ text]))
               (mkVars (Some "sk-demo") (Some Demo.someOrchestrator)
                       (Some (inr Demo.someOrchestrator)))
               Demo.allUp) in
  (Demo.JSON_parse "null" = inr VNull /\
   member "sessionId" VNull = None /\
   member "message" VNull = None /\
   handling "null" =
     [console_log (ReceivedEvent (mkEvent [Demo.record_ "null"]));
      console_error
        (ErrorProcessingRecord
           (TypeError "Cannot read properties of null (reading 'sessionId')"))] /\
   routed (handling "null") = []) /\
  (Demo.JSON_parse (Demo.text Demo.unprintableSession) = inr Demo.unprintableSession /\
   member "message" Demo.unprintableSession = None /\
   handling (Demo.text Demo.unprintableSession) =
     [console_log (ReceivedEvent (mkEvent [Demo.record_ (Demo.text Demo.unprintableSession)]));
      console_error
        (ErrorProcessingRecord (TypeError "Cannot convert object to primitive value"))] /\
   routed (handling (Demo.text Demo.unprintableSession)) = []).
Proof. cbn zeta. repeat split; reflexivity. Qed.

(** C10, as amended, at a concrete input: the body [{}], in a batch of its
    own, in a process that holds the orchestrator. *)
Lemma missing_fields_reach_routeRequest_as_undefined_witness :
  routed (trace (run Demo.services
                     (processRecord Demo.JSON_parse Demo.JSON_stringify Demo.someOrchestrator
                                    "https://sqs.example/delivery" (Demo.record_ "{}"))
                     (mkVars (Some "sk-demo") (Some Demo.someOrchestrator)
                             (Some (inr Demo.someOrchestrator)))
                     Demo.allUp)) =
  [(Demo.someOrchestrator, (VUndefined, (VUndefined, VUndefined)))].
Proof.
  refine (proj1 (proj2 (proj2
           (@missing_fields_reach_routeRequest_as_undefined
              Demo.World Demo.services Demo.env Demo.JSON_parse Demo.JSON_stringify
              (mkEvent [Demo.record_ "{}"]) [] (Demo.record_ "{}") []
              (mkVars (Some "sk-demo") (Some Demo.someOrchestrator)
                      (Some (inr Demo.someOrchestrator)))
              Demo.allUp Demo.someOrchestrator "https://sqs.example/delivery"
              (VObj []) "undefined" "undefined"
              eq_refl eq_refl eq_refl eq_refl _ _ eq_refl eq_refl))));
    discriminate.
Defined.

(** C2, the code at the failing input.  The parameter store is down for
    the first invocation and up again afterwards.  The first invocation
    throws; the second finds the rejected promise, fetches nothing and throws
    the same error, although a call of [initializeOrchestrator] at that
    point would succeed. *)
Theorem failed_initialization_is_never_retried :
  result (run Demo.services
              (handler Demo.env Demo.JSON_parse Demo.JSON_stringify Demo.twoRecords)
              moduleVars Demo.ssmOutage) =
    inl (Error "Failed to retrieve API key") /\
  Demo.ssmDown (world Demo.afterOutage) = false /\
  orchestratorPromise (vars Demo.afterOutage) =
    Some (inl (Error "Failed to retrieve API key")) /\
  result (run Demo.services
              (handler Demo.env Demo.JSON_parse Demo.JSON_stringify Demo.twoRecords)
              (vars Demo.afterOutage) (world Demo.afterOutage)) =
    inl (Error "Failed to retrieve API key") /\
  trace (run Demo.services
             (handler Demo.env Demo.JSON_parse Demo.JSON_stringify Demo.twoRecords)
             (vars Demo.afterOutage) (world Demo.afterOutage)) =
    [console_log (ReceivedEvent Demo.twoRecords)] /\
  result (run Demo.services (initializeOrchestrator Demo.env)
              (vars Demo.afterOutage) (world Demo.afterOutage)) =
    inr Demo.someOrchestrator.
Proof. repeat split; reflexivity. Qed.

(** A batch of four records, with a failure at each step: the first is not
    JSON, routing fails for the second, the publish fails for the third (the
    queue is down once), the fourth goes through.  All four are handled. *)
Example batch_with_a_failure_at_each_step :
  recordEnds (trace (run Demo.services
                         (handler Demo.env Demo.JSON_parse Demo.JSON_stringify Demo.fourRecords)
                         moduleVars Demo.sqsOutage)) =
    [Failed (mkExn "SyntaxError" "Unexpected end of JSON input");
     Failed (Error "No agent identified");
     Failed (mkExn "ServiceUnavailable" "queue is down");
     Sent (Some "m-1")] /\
  result (run Demo.services
              (handler Demo.env Demo.JSON_parse Demo.JSON_stringify Demo.fourRecords)
              moduleVars Demo.sqsOutage) =
    inr (mkSummary "Processed 4 messages").
Proof. split; reflexivity. Qed.

End OneCall.

(** ** Any number of invocations *)

Module ManyCalls.

Import Loop.

Lemma harmless_fetched extra : Forall harmless extra -> fetched extra = [].
Proof.
  induction 1 as [|e tr He _ IH]; [reflexivity|]. destruct e; cbn in *; tauto.
Qed.

Lemma harmless_built extra : Forall harmless extra -> built extra = [].
Proof.
  induction 1 as [|e tr He _ IH]; [reflexivity|]. destruct e; cbn in *; tauto.
Qed.

Lemma harmless_registered extra : Forall harmless extra -> registered extra = [].
Proof.
  induction 1 as [|e tr He _ IH]; [reflexivity|]. destruct e; cbn in *; tauto.
Qed.

(** *** Quiet code *)

Lemma quiet_bind (A B : Type) (t : async promise A) (f : A -> async promise B) :
  quiet t -> (forall a, quiet (f a)) -> quiet (bind t f).
Proof.
  intros Ht Hf. induction Ht; cbn; try (constructor; auto; fail). apply Hf.
Qed.

Lemma quiet_tryCatch (A : Type) (t : async promise A) (h : exn -> async promise A) :
  quiet t -> (forall e, quiet (h e)) -> quiet (tryCatch t h).
Proof.
  intros Ht Hh. induction Ht; cbn; try (constructor; auto; fail). apply Hh.
Qed.

Lemma quiet_settle (A : Type) (r : exn + A) : quiet (@settle promise A r).
Proof. destruct r; constructor. Qed.

Lemma quiet_forOf (X : Type) (xs : list X) (body : X -> async promise unit) :
  (forall x, quiet (body x)) -> quiet (forOf xs body).
Proof.
  intros Hb. induction xs as [|x rest IH]; cbn; [constructor|].
  apply quiet_bind; auto.
Qed.

Section Steps.

Variable env : Env.
Variable JSON_parse : string -> exn + value.
Variable JSON_stringify : value -> exn + string.

Lemma quiet_processRecord o q record :
  quiet (processRecord (P:=promise) JSON_parse JSON_stringify o q record).
Proof.
  unfold processRecord, recordBody.
  apply quiet_tryCatch; [|intros e; repeat constructor].
  repeat (cbn zeta; apply quiet_bind;
          [first [apply quiet_settle
                 |constructor; intros r; apply quiet_settle
                 |repeat constructor]
          |intros ?]).
  repeat constructor.
Qed.

Lemma quiet_processBatch o event :
  quiet (processBatch (P:=promise) env JSON_parse JSON_stringify o event).
Proof.
  unfold processBatch. destruct (nonEmpty (QUEUE_URL env)); [|constructor].
  apply quiet_bind; [|intros _; constructor].
  apply quiet_forOf. intros record. apply quiet_processRecord.
Qed.

(** Running quiet code only adds harmless effects and suspends quietly. *)
Lemma sync_quiet (A : Type) (t : async promise A) :
  quiet t ->
  forall s, exists extra at_,
    sync t s = (mkProcess (vars s) (promises s) (tasks s) (trace s ++ extra), at_) /\
    Forall harmless extra /\ quietAt at_.
Proof.
  induction 1 as [A a|A e|A e k He _ IH|A k _ IH|A o m u i k Hk _|A cmd k Hk _|A k Hk _];
    intros s; cbn [sync].
  - exists [], (Finished (inr a)). rewrite app_nil_r. now destruct s.
  - exists [], (Finished (inl e)). rewrite app_nil_r. now destruct s.
  - destruct (IH (emit e s)) as (extra & at_ & Hs & Hh & Hq).
    exists (e :: extra), at_. rewrite Hs. cbn. rewrite <- app_assoc. auto.
  - apply IH.
  - exists [routeRequest o m u i], (OnRoute o m u i k). cbn. repeat split; auto.
    repeat constructor.
  - exists [sqs_send cmd], (OnSqs cmd k). cbn. repeat split; auto. repeat constructor.
  - exists [], (OnTick k). rewrite app_nil_r. cbn. now destruct s.
Qed.

(** *** The first invocation, and the later ones *)

Lemma nonEmpty_Some x key : nonEmpty x = Some key -> nonEmpty (Some key) = Some key.
Proof.
  destruct x as [y|]; cbn; [|discriminate].
  destruct (String.eqb y "") eqn:E; [discriminate|]. intros [= <-]. cbn. now rewrite E.
Qed.

Lemma sync_handler_later event s p :
  orchestratorPromise (vars s) = Some p ->
  sync (handler env JSON_parse JSON_stringify event) s =
  (emit (console_log (ReceivedEvent event)) s,
   OnPromise p (handlerRest env JSON_parse JSON_stringify event)).
Proof.
  intros Hp. unfold handler. cbn [bind do_ read sync]. cbn [emit vars].
  rewrite Hp. reflexivity.
Qed.

Lemma sync_handler_first event :
  exists k,
    sync (handler env JSON_parse JSON_stringify event) fresh =
    (mkProcess (mkVars None None (Some 0)) [Pending]
               [Initializing 0 (OnSsm getParameterCommand k)]
               [console_log (ReceivedEvent event); ssm_send getParameterCommand],
     OnPromise 0 (handlerRest env JSON_parse JSON_stringify event))
    /\ fetching env k.
Proof.
  eexists. split; [reflexivity|].
  intros r s. destruct r as [e|res].
  - exists [console_error (ErrorRetrievingApiKey e)]. eexists.
    split; [reflexivity|]. split; [repeat constructor|].
    intros s' _. left. eexists. reflexivity.
  - cbn [bind tryCatch settle].
    destruct (nonEmpty match Param res with Some p => Value p | None => None end)
      as [key|] eqn:Hkey.
    + exists []. eexists. split; [cbn; rewrite app_nil_r; destruct s; reflexivity|].
      split; [constructor|].
      intros s' Hnone. right. exists key. split; [eapply nonEmpty_Some; exact Hkey|].
      cbn. rewrite Hnone. cbn. unfold assign, emit, set_orchestrator, set_apiKey, constructed. cbn.
      repeat rewrite <- app_assoc. reflexivity.
    + exists [console_error (ErrorRetrievingApiKey (Error "API key not found in SSM"))].
      eexists. split; [reflexivity|]. split; [repeat constructor|].
      intros s' _. left. eexists. reflexivity.
Qed.

Lemma quiet_handlerRest event r :
  quiet (handlerRest env JSON_parse JSON_stringify event r).
Proof.
  unfold handlerRest. apply quiet_bind; [apply quiet_settle|].
  intros o. apply quiet_processBatch.
Qed.

Lemma invoke_fresh event : serving env (invoke env JSON_parse JSON_stringify event fresh).
Proof.
  unfold invoke. destruct (sync_handler_first event) as (k & -> & Hk).
  constructor; cbn; [reflexivity|reflexivity|].
  eexists. eexists. split; [reflexivity|]. split; [|split; [discriminate|]].
  - constructor; [|constructor]. cbn. split; [reflexivity|]. apply quiet_handlerRest.
  - cbn. auto 10.
Qed.

(** The stage only looks at the variables, the promises and what was built
    and registered. *)
Lemma stage_neutral s s' at_ :
  vars s' = vars s -> promises s' = promises s ->
  built (trace s') = built (trace s) -> registered (trace s') = registered (trace s) ->
  stage env s at_ -> stage env s' at_.
Proof.
  intros Hv Hp Hb Hr. unfold stage. rewrite Hv, Hp, Hb, Hr. exact (fun H => H).
Qed.

Lemma serving_invoke event s :
  serving env s -> serving env (invoke env JSON_parse JSON_stringify event s).
Proof.
  intros [Hp Hf (at_ & hs & Ht & Hq & Hne & Hst)].
  unfold invoke. rewrite (sync_handler_later _ _ Hp).
  constructor; cbn.
  - exact Hp.
  - now rewrite fetched_app, Hf.
  - exists at_, (hs ++ [Handling event (OnPromise 0 (handlerRest env JSON_parse JSON_stringify event))]).
    rewrite Ht. split; [reflexivity|]. split; [|split].
    + apply Forall_app. split; [exact Hq|]. constructor; [|constructor].
      cbn. split; [reflexivity|]. apply quiet_handlerRest.
    + now destruct hs.
    + eapply stage_neutral; [| | | |exact Hst]; cbn; try reflexivity.
      * now rewrite built_app, app_nil_r.
      * now rewrite registered_app, app_nil_r.
Qed.

Lemma Forall_replace (X : Type) (Q : X -> Prop) i x l :
  Forall Q l -> Q x -> Forall Q (replace i x l).
Proof.
  intros Hl Hx. revert i. induction Hl as [|y l Hy Hl IH]; intros i; cbn.
  - destruct i; constructor.
  - destruct i as [|j]; constructor; auto.
Qed.

Lemma replace_nil (X : Type) i (x : X) l : replace i x l = [] -> l = [].
Proof. destruct l, i; cbn; congruence. Qed.

Lemma wakes_quiet (A : Type) s (at_ : suspended A) t :
  quietAt at_ -> wakes s at_ t -> quiet t.
Proof.
  intros Hq Hw. destruct Hw; cbn in Hq; try apply Hq. contradiction.
Qed.

Lemma serving_handling s i event at_ t :
  serving env s ->
  nth_error (tasks s) i = Some (Handling event at_) ->
  wakes s at_ t ->
  serving env (resumeHandling i event t s).
Proof.
  intros [Hp Hf (at0 & hs & Ht & Hq & Hne & Hst)] Hi Hw.
  rewrite Ht in Hi. destruct i as [|j]; [discriminate|]. cbn in Hi.
  assert (Hat : quietAt at_).
  { rewrite Forall_forall in Hq. apply (Hq (Handling event at_)).
    eapply nth_error_In; exact Hi. }
  destruct (sync_quiet (wakes_quiet Hat Hw) s) as (extra & at' & Hs & Hh & Hq').
  unfold resumeHandling. rewrite Hs.
  constructor; cbn.
  - exact Hp.
  - now rewrite fetched_app, (harmless_fetched Hh), app_nil_r.
  - exists at0, (replace j (Handling event at') hs). rewrite Ht. cbn.
    split; [reflexivity|]. split; [|split].
    + apply Forall_replace; [exact Hq|exact Hq'].
    + intros H. apply Hne. eapply replace_nil; exact H.
    + eapply stage_neutral; [| | | |exact Hst]; cbn; try reflexivity.
      * now rewrite built_app, (harmless_built Hh), app_nil_r.
      * now rewrite registered_app, (harmless_registered Hh), app_nil_r.
Qed.

Lemma fetched_construction key : fetched (construction env key) = [].
Proof. reflexivity. Qed.

Lemma serving_initializing s i p at_ t :
  serving env s ->
  nth_error (tasks s) i = Some (Initializing p at_) ->
  wakes s at_ t ->
  serving env (resumeInitializing i p t s).
Proof.
  intros [Hp Hf (at0 & hs & Ht & Hq & Hne & Hst)] Hi Hw.
  rewrite Ht in Hi. destruct i as [|j]; cbn in Hi.
  2:{ rewrite Forall_forall in Hq. destruct (Hq (Initializing p at_)).
      eapply nth_error_In; exact Hi. }
  injection Hi as <- <-.
  unfold resumeInitializing.
  destruct Hw as [cmd k r|o m u x k r|cmd k r|k|q k r Hq0]; cbn in Hst; try contradiction.
  - destruct Hst as (Hk & Hprom & Hb & Hr & Hkey & Horch).
    destruct (Hk r s) as (extra & k' & -> & Hh & Hk').
    constructor; cbn.
    + exact Hp.
    + now rewrite fetched_app, (harmless_fetched Hh), app_nil_r.
    + exists (OnTick k'), hs. rewrite Ht. cbn. repeat split; auto.
      * now rewrite built_app, (harmless_built Hh), Hb.
      * now rewrite registered_app, (harmless_registered Hh), Hr.
  - destruct Hst as (Hk & Hprom & Hb & Hr & Hkey & Horch).
    destruct (Hk s Horch) as [(e & ->)|(key & Hne' & ->)].
    + constructor; cbn.
      * exact Hp.
      * exact Hf.
      * exists (Finished (inl e)), hs. rewrite Ht, Hprom. cbn. repeat split; auto.
    + constructor; cbn.
      * exact Hp.
      * now rewrite fetched_app, fetched_construction, app_nil_r.
      * exists (Finished (inr (constructed env (Some key)))), hs.
        rewrite Ht, Hprom. cbn. repeat split; auto.
        -- now rewrite built_app, Hb.
        -- now rewrite registered_app, Hr.
        -- exists key. auto.
Qed.

Lemma serving_step s s' :
  serving env s -> step env JSON_parse JSON_stringify s s' -> serving env s'.
Proof.
  intros Hs Hstep. destruct Hstep.
  - now apply serving_invoke.
  - eapply serving_handling; eassumption.
  - eapply serving_initializing; eassumption.
Qed.

Lemma serving_steps s s' :
  serving env s -> steps env JSON_parse JSON_stringify s s' -> serving env s'.
Proof.
  intros Hs Hsteps. induction Hsteps; [exact Hs|]. eapply serving_step; eassumption.
Qed.

(** Every process is either fresh or serving. *)
Lemma reachable_serving s :
  steps env JSON_parse JSON_stringify fresh s -> s = fresh \/ serving env s.
Proof.
  intros Hsteps. induction Hsteps as [|s1 s2 _ IH Hstep]; [now left|]. right.
  destruct IH as [->|Hs]; [|eapply serving_step; eassumption].
  destruct Hstep as [event|i event at_ t Hi _|i p at_ t Hi _].
  - apply invoke_fresh.
  - now destruct i.
  - now destruct i.
Qed.

Lemma steps_trans s1 s2 s3 :
  steps env JSON_parse JSON_stringify s1 s2 ->
  steps env JSON_parse JSON_stringify s2 s3 ->
  steps env JSON_parse JSON_stringify s1 s3.
Proof.
  intros H12 H23. induction H23; [exact H12|]. eapply steps_more; eassumption.
Qed.

Lemma quietTasks_count hs :
  Forall quietTask hs ->
  filter (fun t => match t with Initializing _ _ => true | _ => false end) hs = [] /\
  Forall (fun p => p = 0)
         (flat_map (fun t => match t with
                             | Handling _ (OnPromise p _) => [p]
                             | _ => []
                             end) hs).
Proof.
  induction 1 as [|t hs Ht _ [IH1 IH2]]; [split; constructor|].
  destruct t as [p at_|event at_]; cbn in Ht; [contradiction|]. cbn.
  split; [exact IH1|].
  destruct at_; cbn; try exact IH2. constructor; [apply Ht|exact IH2].
Qed.

Lemma steps_ssmReplies i r s :
  steps env JSON_parse JSON_stringify s (ssmReplies i r s).
Proof.
  unfold ssmReplies.
  destruct (nth_error (tasks s) i) as [[p [cmd k| | | | |]|]|] eqn:Hi; try apply steps_none.
  eapply steps_more; [apply steps_none|].
  eapply step_initializing; [exact Hi|constructor].
Qed.

Lemma steps_tickPasses i s :
  steps env JSON_parse JSON_stringify s (tickPasses i s).
Proof.
  unfold tickPasses.
  destruct (nth_error (tasks s) i) as [[p [| | |k| |]|]|] eqn:Hi; try apply steps_none.
  eapply steps_more; [apply steps_none|].
  eapply step_initializing; [exact Hi|constructor].
Qed.

Lemma steps_invoke event s :
  steps env JSON_parse JSON_stringify s (invoke env JSON_parse JSON_stringify event s).
Proof. eapply steps_more; [apply steps_none|apply step_invoke]. Qed.

(** Once the key is cached, no turn of the loop changes the variables. *)
Lemma cached_key_step s s' key :
  serving env s -> apiKey (vars s) = Some key ->
  step env JSON_parse JSON_stringify s s' -> vars s' = vars s.
Proof.
  intros Hs Hkey Hstep. pose proof Hs as [Hp Hf (at0 & hs & Ht & Hq & Hne & Hst)].
  destruct Hstep as [event|i event at_ t Hi Hw|i p at_ t Hi Hw].
  - unfold invoke. now rewrite (sync_handler_later _ _ Hp).
  - rewrite Ht in Hi. destruct i as [|j]; [discriminate|]. cbn in Hi.
    assert (Hat : quietAt at_).
    { rewrite Forall_forall in Hq. apply (Hq (Handling event at_)).
      eapply nth_error_In; exact Hi. }
    destruct (sync_quiet (wakes_quiet Hat Hw) s) as (extra & at' & Hsync & _).
    unfold resumeHandling. now rewrite Hsync.
  - rewrite Ht in Hi. destruct i as [|j]; cbn in Hi.
    2:{ rewrite Forall_forall in Hq. destruct (Hq (Initializing p at_)).
        eapply nth_error_In; exact Hi. }
    injection Hi as <- <-.
    destruct Hw; cbn in Hst; try contradiction;
      destruct Hst as (_ & _ & _ & _ & Hnone & _); congruence.
Qed.

Lemma cached_key_steps s s' key :
  serving env s -> apiKey (vars s) = Some key ->
  steps env JSON_parse JSON_stringify s s' -> vars s' = vars s.
Proof.
  intros Hs Hkey Hsteps. induction Hsteps as [|s1 s2 H1 IH H2]; [reflexivity|].
  rewrite <- IH. eapply cached_key_step; [|rewrite IH; exact Hkey|exact H2].
  eapply serving_steps; eassumption.
Qed.

(** *** The claim about the cached key *)


End Steps.


(** The two semantics agree on one invocation run alone: followed turn by
    turn in the event loop, with the replies the services give, it does what
    the run to completion does, in the same order, and ends with the same
    result. *)
Example one_invocation_both_ways :
  trace Demo.oneInvocation =
    Seq.trace (Seq.run Demo.services
                       (handler Demo.env Demo.JSON_parse Demo.JSON_stringify Demo.twoRecords)
                       moduleVars Demo.allUp) /\
  nth_error (tasks Demo.oneInvocation) 1 =
    Some (Handling Demo.twoRecords
                   (Finished (Seq.result
                                (Seq.run Demo.services
                                         (handler Demo.env Demo.JSON_parse Demo.JSON_stringify
                                                  Demo.twoRecords)
                                         moduleVars Demo.allUp)))).
Proof. split; reflexivity. Qed.

End ManyCalls.

(** ** More about one call at a time *)

Module OneCallMore.

Import Seq.
Import OneCall.

Section Facts.

Variable W : Type.
Variable S : Services W.
Variable env : Env.
Variable JSON_parse : string -> exn + value.
Variable JSON_stringify : value -> exn + string.

Lemma nonEmpty_fixed x key : nonEmpty x = Some key -> nonEmpty (Some key) = Some key.
Proof.
  destruct x as [y|]; cbn; [|discriminate].
  destruct (String.eqb y "") eqn:E; [discriminate|]. intros [= <-]. cbn. now rewrite E.
Qed.

Lemma routed_initEffect tr : Forall (initEffect env) tr -> routed tr = [].
Proof.
  induction 1 as [|e tr He _ IH]; [reflexivity|]. destruct He; exact IH.
Qed.

Lemma published_initEffect tr : Forall (initEffect env) tr -> published tr = [].
Proof.
  induction 1 as [|e tr He _ IH]; [reflexivity|]. destruct He; exact IH.
Qed.

(** *** [initializeOrchestrator] *)

(** X2.  [initializeOrchestrator] is idempotent: called again after a call
    that succeeded, it returns the same orchestrator, does nothing that can
    be seen (no fetch, no construction, no registration) and leaves the
    variables and the services as they were. *)
Theorem initializeOrchestrator_idempotent (g : Vars promise) w o :
  result (run S (initializeOrchestrator env) g w) = inr o ->
  run S (initializeOrchestrator env)
      (vars (run S (initializeOrchestrator env) g w))
      (world (run S (initializeOrchestrator env) g w)) =
  mkRun (vars (run S (initializeOrchestrator env) g w))
        (world (run S (initializeOrchestrator env) g w)) [] (inr o).
Proof.
  rewrite !run_initializeOrchestrator.
  destruct (nonEmpty (apiKey g)) as [k|] eqn:Hk.
  - unfold build. destruct (orchestrator g) as [o0|] eqn:Ho; cbn.
    + intros [= <-]. now rewrite Hk, Ho.
    + intros [= <-]. now rewrite Hk.
  - rewrite run_getApiKeyFromSSM.
    destruct (ssm_reply S getParameterCommand w) as [w' reply]. unfold andThen.
    destruct (nonEmpty (yielded reply)) as [key|] eqn:Hkey;
      cbn [result vars world trace after]; [|discriminate].
    pose proof (nonEmpty_fixed _ Hkey) as Hfix.
    unfold build. cbn in Hfix |- *. destruct (orchestrator g) as [o0|] eqn:Ho; cbn.
    + intros [= <-]. now rewrite Hfix, Ho.
    + intros [= <-]. now rewrite Hfix.
Qed.

(** X3.  [initializeOrchestrator] fails only when no key was cached and the
    fetch gave none; it then throws "Failed to retrieve API key", has built
    and registered nothing, and leaves the three variables as they were, so
    that a later call starts over. *)
Theorem failed_initializeOrchestrator_changes_nothing (g : Vars promise) w e :
  result (run S (initializeOrchestrator env) g w) = inl e ->
  e = Error "Failed to retrieve API key" /\
  nonEmpty (apiKey g) = None /\
  nonEmpty (yielded (snd (ssm_reply S getParameterCommand w))) = None /\
  vars (run S (initializeOrchestrator env) g w) = g /\
  built (trace (run S (initializeOrchestrator env) g w)) = [] /\
  registered (trace (run S (initializeOrchestrator env) g w)) = [].
Proof.
  rewrite run_initializeOrchestrator.
  destruct (nonEmpty (apiKey g)) as [k|] eqn:Hk.
  - unfold build. destruct (orchestrator g); discriminate.
  - rewrite run_getApiKeyFromSSM.
    destruct (ssm_reply S getParameterCommand w) as [w' reply]. unfold andThen. cbn [snd].
    destruct (nonEmpty (yielded reply)) as [key|] eqn:Hkey;
      cbn [result vars world trace after].
    + unfold build. cbn. destruct (orchestrator g); discriminate.
    + intros [= <-]. auto 10.
Qed.

(** X4.  When [initializeOrchestrator] builds the orchestrator, it registers
    exactly three agents, in the order order management, product
    information, human agent; the classifier is given the key that [apiKey]
    then holds, which is a non-empty string; the orchestrator uses the
    module's storage and a logger on the queue of QUEUE_URL tagged "log"; and
    the variable [orchestrator] holds the object returned. *)
Theorem initializeOrchestrator_registers_three_agents (g : Vars promise) w o :
  orchestrator g = None ->
  result (run S (initializeOrchestrator env) g w) = inr o ->
  agents o = [orderManagementAgent; productInfoAgent; humanAgent env] /\
  registered (trace (run S (initializeOrchestrator env) g w)) = agents o /\
  orchestrator (vars (run S (initializeOrchestrator env) g w)) = Some o /\
  classifierKey (classifier (options o)) =
    apiKey (vars (run S (initializeOrchestrator env) g w)) /\
  (exists key, classifierKey (classifier (options o)) = Some key /\
               nonEmpty (Some key) = Some key) /\
  storage (options o) = moduleStorage env /\
  logger (options o) = mkLogger (QUEUE_URL env) "log".
Proof.
  intros Ho. rewrite run_initializeOrchestrator.
  destruct (nonEmpty (apiKey g)) as [k|] eqn:Hk.
  - unfold build. rewrite Ho. cbn. intros [= <-]. cbn. repeat split.
    exists k. destruct (apiKey g) as [x|]; [|discriminate]. cbn in Hk.
    destruct (String.eqb x "") eqn:E; [discriminate|]. injection Hk as <-.
    split; [reflexivity|]. cbn. now rewrite E.
  - rewrite run_getApiKeyFromSSM.
    destruct (ssm_reply S getParameterCommand w) as [w' reply]. unfold andThen.
    destruct (nonEmpty (yielded reply)) as [key|] eqn:Hkey;
      cbn [result vars world trace after]; [|discriminate].
    unfold build. cbn. rewrite Ho. cbn. intros [= <-]. cbn. repeat split.
    exists key. split; [reflexivity|]. eapply nonEmpty_fixed; exact Hkey.
Qed.

(** *** The handler and the module's variables *)

Lemma vars_recordBody o q record g w :
  vars (run S (recordBody JSON_parse JSON_stringify o q record) g w) = g.
Proof.
  rewrite run_recordBody.
  record_cases S JSON_parse JSON_stringify o q record w; reflexivity.
Qed.

Lemma vars_forOf o q records g w :
  vars (run S (forOf records (processRecord JSON_parse JSON_stringify o q)) g w) = g.
Proof.
  revert g w. induction records as [|record rest IH]; intros g w; [reflexivity|].
  cbn [forOf]. rewrite run_bind, run_processRecord. cbn zeta. unfold andThen.
  cbn [result vars world trace after]. now rewrite IH, vars_recordBody.
Qed.

Lemma vars_processBatch o event g w :
  vars (run S (processBatch env JSON_parse JSON_stringify o event) g w) = g.
Proof.
  rewrite run_processBatch. destruct (nonEmpty (QUEUE_URL env)) as [q|]; [|reflexivity].
  unfold andThen. pose proof (vars_forOf o q (Records event) g w) as Hv.
  destruct (run S (forOf _ _) g w) as [g' w' tr [e|[]]]; cbn in *; exact Hv.
Qed.

Lemma vars_handler event g w :
  vars (run S (handler env JSON_parse JSON_stringify event) g w) =
  vars (initialization S env g w).
Proof.
  rewrite run_handler. cbn [did vars]. unfold andThen.
  destruct (result (initialization S env g w)); [reflexivity|].
  cbn [after vars]. apply vars_processBatch.
Qed.

Lemma promise_initialization (g : Vars promise) (w : W) :
  orchestratorPromise (vars (initialization S env g w)) =
  Some (result (initialization S env g w)).
Proof.
  unfold initialization. destruct (orchestratorPromise g) eqn:Hp; cbn; [exact Hp|reflexivity].
Qed.

Lemma routed_forOf o q records g w :
  Forall (fun call => fst call = o)
         (routed (trace (run S (forOf records (processRecord JSON_parse JSON_stringify o q)) g w))).
Proof.
  eapply Forall_impl; [|apply Forall_routed, forOf_effects].
  intros [o' [m [u i]]] (record & _ & He). cbn [fst snd] in *. now inversion He.
Qed.

Lemma trace_handler_settled event (g : Vars promise) w o :
  orchestratorPromise g = Some (inr o) ->
  trace (run S (handler env JSON_parse JSON_stringify event) g w) =
  console_log (ReceivedEvent event)
  :: trace (run S (processBatch env JSON_parse JSON_stringify o event) g w).
Proof.
  intros Hp. rewrite run_handler. unfold initialization. rewrite Hp. reflexivity.
Qed.

Lemma quiet_batch_trace o event g w :
  fetched (trace (run S (processBatch env JSON_parse JSON_stringify o event) g w)) = [] /\
  built (trace (run S (processBatch env JSON_parse JSON_stringify o event) g w)) = [] /\
  registered (trace (run S (processBatch env JSON_parse JSON_stringify o event) g w)) = [] /\
  Forall (fun call => fst call = o)
         (routed (trace (run S (processBatch env JSON_parse JSON_stringify o event) g w))).
Proof.
  destruct (nonEmpty (QUEUE_URL env)) as [q|] eqn:Hq.
  - rewrite (trace_processBatch _ _ _ _ _ _ _ _ Hq).
    pose proof (forOf_effects S JSON_parse JSON_stringify o q (Records event) g w) as Heff.
    repeat split; try apply routed_forOf;
      induction Heff as [|e tr (record & _ & He) _ IH]; try reflexivity;
      destruct He; exact IH.
  - rewrite run_processBatch, Hq. cbn. repeat split. constructor.
Qed.

(** X1.  In a process whose module loaded, the handler throws nothing of
    its own: whatever it throws is what the initialization it awaited threw.
    The test of QUEUE_URL at lines 110-113 can never fire there, because the
    module's own guard (lines 20-22) has already refused to load without
    it. *)
Theorem handler_throws_only_what_initialization_threw event g w e :
  moduleGuard env = inr tt ->
  result (run S (handler env JSON_parse JSON_stringify event) g w) = inl e ->
  result (initialization S env g w) = inl e.
Proof.
  intros Hguard. rewrite result_handler. unfold moduleGuard in Hguard.
  destruct (result (initialization S env g w)) as [e'|o]; [now intros [= ->]|].
  destruct (nonEmpty (QUEUE_URL env)); discriminate.
Qed.

(** X6.  Handling the records of a batch assigns none of the module's
    variables.  After a handler invocation, whatever its result, the
    variables are as the initialization left them, and
    [orchestratorPromise] holds the promise the invocation awaited. *)
Theorem records_never_assign_variables event o g w :
  vars (run S (processBatch env JSON_parse JSON_stringify o event) g w) = g /\
  vars (run S (handler env JSON_parse JSON_stringify event) g w) =
    vars (initialization S env g w) /\
  orchestratorPromise (vars (run S (handler env JSON_parse JSON_stringify event) g w)) =
    Some (result (initialization S env g w)).
Proof.
  split; [apply vars_processBatch|]. split; [apply vars_handler|].
  rewrite vars_handler. apply promise_initialization.
Qed.

(** X5.  Once an invocation has obtained the orchestrator, the next
    invocation in the process obtains the same one without initializing
    anything: it fetches no key, builds no orchestrator, registers no agent,
    and both invocations send every [routeRequest] to that one
    orchestrator. *)
Theorem later_invocation_reuses_orchestrator event event' g w o :
  result (initialization S env g w) = inr o ->
  let first := run S (handler env JSON_parse JSON_stringify event) g w in
  let second := run S (handler env JSON_parse JSON_stringify event') (vars first) (world first) in
  result (initialization S env (vars first) (world first)) = inr o /\
  fetched (trace second) = [] /\
  built (trace second) = [] /\
  registered (trace second) = [] /\
  Forall (fun call => fst call = o) (routed (trace first)) /\
  Forall (fun call => fst call = o) (routed (trace second)).
Proof.
  intros Hinit first second.
  assert (Hp : orchestratorPromise (vars first) = Some (inr o)).
  { subst first. rewrite vars_handler, promise_initialization. now rewrite Hinit. }
  split; [unfold initialization; now rewrite Hp|].
  subst second. rewrite trace_handler_settled with (o := o) by exact Hp.
  cbn [fetched built registered routed flat_map app].
  destruct (quiet_batch_trace o event' (vars first) (world first)) as (Hf & Hb & Hr & Hrt).
  repeat split; auto.
  unfold first. rewrite run_handler. cbn [did trace]. unfold andThen. rewrite Hinit.
  cbn [after trace routed flat_map app]. fold (routed (trace (initialization S env g w)
    ++ trace (run S (processBatch env JSON_parse JSON_stringify o event)
                  (vars (initialization S env g w)) (world (initialization S env g w))))).
  rewrite routed_app, (routed_initEffect (initialization_effects S env g w)).
  apply quiet_batch_trace.
Qed.

(** *** What a record, and a batch, can publish *)

Lemma counts_processRecord o q record g w :
  length (published (trace (run S (processRecord JSON_parse JSON_stringify o q record) g w)))
  <= length (routed (trace (run S (processRecord JSON_parse JSON_stringify o q record) g w)))
  /\ length (routed (trace (run S (processRecord JSON_parse JSON_stringify o q record) g w)))
     <= 1.
Proof.
  rewrite run_processRecord; cbn zeta. rewrite run_recordBody.
  record_cases S JSON_parse JSON_stringify o q record w; cbn; lia.
Qed.

Lemma counts_forOf o q records g w :
  length (published (trace (run S (forOf records (processRecord JSON_parse JSON_stringify o q)) g w)))
  <= length (routed (trace (run S (forOf records (processRecord JSON_parse JSON_stringify o q)) g w)))
  /\ length (routed (trace (run S (forOf records (processRecord JSON_parse JSON_stringify o q)) g w)))
     <= length records.
Proof.
  revert g w. induction records as [|record rest IH]; intros g w; [cbn; lia|].
  cbn [forOf]. rewrite run_bind. unfold andThen.
  pose proof (counts_processRecord o q record g w) as [H1 H2].
  destruct (run S (processRecord _ _ o q record) g w) as [g' w' tr [e|[]]];
    cbn [result vars world trace after] in *; [cbn; lia|].
  destruct (IH g' w') as [H3 H4].
  rewrite published_app, routed_app, !length_app. cbn [length]. lia.
Qed.

(** X7.  Whatever the handling of a record publishes, it publishes for a
    body that parsed, whose [sessionId] and [message] could be read, and for
    which [routeRequest] returned a response: the message published is the
    one made from that response.  A record that fails earlier publishes
    nothing. *)
Theorem publish_only_after_successful_routing o q record g w cmd :
  In cmd (published (trace (run S (processRecord JSON_parse JSON_stringify o q record) g w))) ->
  exists b sid m resp payload,
    JSON_parse (body record) = inr b /\
    getProp b "sessionId" = inr sid /\
    getProp b "message" = inr m /\
    snd (route_reply S o m sid sid w) = inr resp /\
    JSON_stringify (customerMessage resp) = inr payload /\
    cmd = mkSendMessage q payload /\
    (exists st mt, ToString sid = inr st /\ ToString m = inr mt) /\
    (exists rt, JSON_stringify (responseObject resp) = inr rt).
Proof.
  rewrite run_processRecord; cbn zeta. rewrite run_recordBody.
  record_cases S JSON_parse JSON_stringify o q record w; cbn; try (intros []; fail).
  - intros Hin. exists b, sid, m, resp, payload.
    repeat (split; [first [reflexivity|assumption|now rewrite Hroute]|]).
    split; [|split; [now exists st, mt|now exists rt]].
    cbn in Hin. destruct Hin as [<-|[]]. reflexivity.
  - intros Hin. exists b, sid, m, resp, payload.
    repeat (split; [first [reflexivity|assumption|now rewrite Hroute]|]).
    split; [|split; [now exists st, mt|now exists rt]].
    cbn in Hin. destruct Hin as [<-|[]]. reflexivity.
Qed.

(** X8.  A handler invocation calls [routeRequest] at most once per record
    of its batch and publishes at most once per call that it made: nothing is
    retried, and nothing is published that was not routed. *)
Theorem no_retries_in_a_batch event g w :
  length (published (trace (run S (handler env JSON_parse JSON_stringify event) g w)))
  <= length (routed (trace (run S (handler env JSON_parse JSON_stringify event) g w)))
  /\ length (routed (trace (run S (handler env JSON_parse JSON_stringify event) g w)))
     <= length (Records event).
Proof.
  rewrite run_handler. cbn [did trace published routed flat_map app].
  fold (published (trace (andThen (initialization S env g w)
          (fun o => run S (processBatch env JSON_parse JSON_stringify o event))))).
  fold (routed (trace (andThen (initialization S env g w)
          (fun o => run S (processBatch env JSON_parse JSON_stringify o event))))).
  pose proof (initialization_effects S env g w) as Hinit.
  unfold andThen. destruct (result (initialization S env g w)) as [e|o]; cbn [trace after].
  - rewrite (published_initEffect Hinit), (routed_initEffect Hinit). cbn. lia.
  - rewrite published_app, routed_app, (published_initEffect Hinit), (routed_initEffect Hinit).
    cbn [app]. destruct (nonEmpty (QUEUE_URL env)) as [q|] eqn:Hq.
    + rewrite trace_processBatch with (q := q) by exact Hq. apply counts_forOf.
    + rewrite run_processBatch, Hq. cbn. lia.
Qed.

(** X9.  An empty batch is not a no-op: the handler still logs the event
    and obtains the orchestrator (in a fresh process it fetches the key and
    builds it), does nothing else, and reports zero messages. *)
Theorem empty_batch_still_initializes event g w :
  Records event = [] ->
  trace (run S (handler env JSON_parse JSON_stringify event) g w) =
    console_log (ReceivedEvent event) :: trace (initialization S env g w) /\
  result (run S (handler env JSON_parse JSON_stringify event) g w) =
    match result (initialization S env g w) with
    | inl e => inl e
    | inr _ =>
        match nonEmpty (QUEUE_URL env) with
        | None => inl (Error "QUEUE_URL environment variable is not set")
        | Some _ => inr (mkSummary "Processed 0 messages")
        end
    end.
Proof.
  intros Hempty. split.
  - rewrite run_handler. cbn [did trace]. f_equal. unfold andThen.
    destruct (result (initialization S env g w)) as [e|o]; [reflexivity|].
    cbn [after trace]. rewrite run_processBatch, Hempty.
    destruct (nonEmpty (QUEUE_URL env)); cbn; now rewrite app_nil_r.
  - rewrite result_handler. unfold summary. now rewrite Hempty.
Qed.

End Facts.

(** *** At concrete inputs *)

(** X1 during an outage of the parameter store. *)
Lemma handler_throws_only_what_initialization_threw_witness :
  result (initialization Demo.services Demo.env moduleVars Demo.ssmOutage) =
    inl (Error "Failed to retrieve API key").
Proof.
  exact (@handler_throws_only_what_initialization_threw
           Demo.World Demo.services Demo.env Demo.JSON_parse Demo.JSON_stringify
           Demo.twoRecords moduleVars Demo.ssmOutage (Error "Failed to retrieve API key")
           eq_refl eq_refl).
Defined.

(** X2 in a fresh process with all services up. *)
Lemma initializeOrchestrator_idempotent_witness :
  run Demo.services (initializeOrchestrator Demo.env)
      (vars (run Demo.services (initializeOrchestrator Demo.env) moduleVars Demo.allUp))
      (world (run Demo.services (initializeOrchestrator Demo.env) moduleVars Demo.allUp)) =
  mkRun (vars (run Demo.services (initializeOrchestrator Demo.env) moduleVars Demo.allUp))
        (world (run Demo.services (initializeOrchestrator Demo.env) moduleVars Demo.allUp))
        [] (inr Demo.someOrchestrator).
Proof.
  exact (@initializeOrchestrator_idempotent
           Demo.World Demo.services Demo.env moduleVars Demo.allUp Demo.someOrchestrator
           eq_refl).
Defined.

(** X3 during an outage of the parameter store. *)
Lemma failed_initializeOrchestrator_changes_nothing_witness :
  vars (run Demo.services (initializeOrchestrator Demo.env) moduleVars Demo.ssmOutage) =
    moduleVars /\
  built (trace (run Demo.services (initializeOrchestrator Demo.env) moduleVars Demo.ssmOutage))
    = [].
Proof.
  destruct (@failed_initializeOrchestrator_changes_nothing
              Demo.World Demo.services Demo.env moduleVars Demo.ssmOutage
              (Error "Failed to retrieve API key") eq_refl)
    as (_ & _ & _ & Hvars & Hbuilt & _).
  exact (conj Hvars Hbuilt).
Defined.

(** X4 in a fresh process with all services up. *)
Lemma initializeOrchestrator_registers_three_agents_witness :
  agents Demo.someOrchestrator =
    [orderManagementAgent; productInfoAgent; humanAgent Demo.env] /\
  classifierKey (classifier (options Demo.someOrchestrator)) = Some "sk-demo".
Proof.
  destruct (@initializeOrchestrator_registers_three_agents
              Demo.World Demo.services Demo.env moduleVars Demo.allUp Demo.someOrchestrator
              eq_refl eq_refl)
    as (Hagents & _ & _ & Hkey & _).
  exact (conj Hagents Hkey).
Defined.

(** X5: two invocations in a row, all services up. *)
Lemma later_invocation_reuses_orchestrator_witness :
  fetched (trace (run Demo.services
                      (handler Demo.env Demo.JSON_parse Demo.JSON_stringify Demo.fourRecords)
                      (vars (run Demo.services
                                 (handler Demo.env Demo.JSON_parse Demo.JSON_stringify
                                          Demo.twoRecords)
                                 moduleVars Demo.allUp))
                      (world (run Demo.services
                                  (handler Demo.env Demo.JSON_parse Demo.JSON_stringify
                                           Demo.twoRecords)
                                  moduleVars Demo.allUp)))) = [].
Proof.
  exact (proj1 (proj2 (@later_invocation_reuses_orchestrator
                         Demo.World Demo.services Demo.env Demo.JSON_parse
                         Demo.JSON_stringify Demo.twoRecords Demo.fourRecords
                         moduleVars Demo.allUp Demo.someOrchestrator eq_refl))).
Defined.

(** X7 for the order question. *)
Lemma publish_only_after_successful_routing_witness :
  exists b sid m resp payload,
    Demo.JSON_parse (Demo.text Demo.orderQuestion) = inr b /\
    getProp b "sessionId" = inr sid /\
    getProp b "message" = inr m /\
    snd (route_reply Demo.services Demo.someOrchestrator m sid sid Demo.allUp) = inr resp /\
    Demo.JSON_stringify (customerMessage resp) = inr payload /\
    mkSendMessage "https://sqs.example/delivery"
                  (Demo.text (customerMessage Demo.orderStatus)) =
    mkSendMessage "https://sqs.example/delivery" payload /\
    (exists st mt, ToString sid = inr st /\ ToString m = inr mt) /\
    (exists rt, Demo.JSON_stringify (responseObject resp) = inr rt).
Proof.
  exact (@publish_only_after_successful_routing
           Demo.World Demo.services Demo.JSON_parse Demo.JSON_stringify
           Demo.someOrchestrator "https://sqs.example/delivery"
           (Demo.record_ (Demo.text Demo.orderQuestion)) moduleVars Demo.allUp
           (mkSendMessage "https://sqs.example/delivery"
                          (Demo.text (customerMessage Demo.orderStatus)))
           (or_introl eq_refl)).
Defined.

(** X9 for the empty batch in a fresh process. *)
Lemma empty_batch_still_initializes_witness :
  fetched (trace (run Demo.services
                      (handler Demo.env Demo.JSON_parse Demo.JSON_stringify (mkEvent []))
                      moduleVars Demo.allUp)) = [getParameterCommand] /\
  result (run Demo.services
              (handler Demo.env Demo.JSON_parse Demo.JSON_stringify (mkEvent []))
              moduleVars Demo.allUp) = inr (mkSummary "Processed 0 messages").
Proof.
  destruct (@empty_batch_still_initializes
              Demo.World Demo.services Demo.env Demo.JSON_parse Demo.JSON_stringify
              (mkEvent []) moduleVars Demo.allUp eq_refl) as [Htrace Hresult].
  split; [rewrite Htrace; reflexivity|exact Hresult].
Defined.

End OneCallMore.

(** ** More about any number of invocations *)

Module ManyCallsMore.

Import Loop.
Import Sharing.
Import ManyCalls.

Lemma via_later sd sd' e : sd = sd' \/ sd = None -> via sd e -> via sd' e.
Proof.
  intros [->| ->]; [exact (fun H => H)|]. destruct e; cbn; auto. discriminate.
Qed.

Lemma answer_later env event sd sd' r :
  sd = sd' \/ sd = None -> answer env event sd r -> answer env event sd' r.
Proof.
  intros [->| ->]; [exact (fun H => H)|]. destruct r as [e|x]; cbn.
  - intros [H|(_ & _ & o & H)]; discriminate.
  - intros (_ & _ & o & H). discriminate.
Qed.

Lemma confined_mono (E E' : effect -> Prop) (A : Type) (Q Q' : exn + A -> Prop) t :
  (forall e, E e -> E' e) -> (forall r, Q r -> Q' r) ->
  confined E Q t -> confined E' Q' t.
Proof.
  intros HE HQ Ht. induction Ht; constructor; auto.
Qed.

Lemma confined_bind (E : effect -> Prop) (A B : Type)
    (Q0 : exn + A -> Prop) (Q : exn + B -> Prop) t (f : A -> async promise B) :
  confined E Q0 t ->
  (forall e, Q0 (inl e) -> Q (inl e)) ->
  (forall a, Q0 (inr a) -> confined E Q (f a)) ->
  confined E Q (bind t f).
Proof.
  intros Ht He Hf. induction Ht; cbn; try (constructor; auto; fail). now apply Hf.
Qed.

Lemma confined_tryCatch (E : effect -> Prop) (A : Type)
    (Q0 Q : exn + A -> Prop) t (h : exn -> async promise A) :
  confined E Q0 t ->
  (forall a, Q0 (inr a) -> Q (inr a)) ->
  (forall e, Q0 (inl e) -> confined E Q (h e)) ->
  confined E Q (tryCatch t h).
Proof.
  intros Ht Ha Hh. induction Ht; cbn; try (constructor; auto; fail). now apply Hh.
Qed.

Lemma confined_settle (E : effect -> Prop) (A : Type) (r : exn + A) :
  confined E (fun _ => True) (@settle promise A r).
Proof. destruct r; now constructor. Qed.

Section Steps.

Variable env : Env.
Variable JSON_parse : string -> exn + value.
Variable JSON_stringify : value -> exn + string.

(** The handling of a record, whatever happens in it, ends normally and
    routes, if at all, through the orchestrator it was given. *)
Lemma confined_processRecord o q record :
  confined (via (Some (inr o))) (fun r => r = inr tt)
           (processRecord (P:=promise) JSON_parse JSON_stringify o q record).
Proof.
  unfold processRecord.
  apply confined_tryCatch with (Q0 := fun _ => True).
  - unfold recordBody.
    repeat (cbn zeta; eapply confined_bind with (Q0 := fun _ => True);
            [first [apply confined_settle
                   |constructor; [first [reflexivity|exact I]|intros r; apply confined_settle]
                   |repeat constructor]
            |trivial
            |intros ? _]).
    repeat constructor.
  - now intros [] _.
  - intros e _. repeat constructor.
Qed.

Lemma confined_forOf o q records :
  confined (via (Some (inr o))) (fun r => r = inr tt)
           (forOf records (processRecord (P:=promise) JSON_parse JSON_stringify o q)).
Proof.
  induction records as [|record rest IH]; cbn; [now constructor|].
  eapply confined_bind; [apply confined_processRecord|discriminate|intros _ _; exact IH].
Qed.

Lemma confined_handlerRest event r :
  confined (via (Some r)) (answer env event (Some r))
           (handlerRest env JSON_parse JSON_stringify event r).
Proof.
  unfold handlerRest. destruct r as [e|o]; cbn.
  - constructor. cbn. now left.
  - unfold processBatch. destruct (nonEmpty (QUEUE_URL env)) as [q|] eqn:Hq.
    + eapply confined_bind; [apply confined_forOf|discriminate|].
      intros _ _. constructor. cbn. split; [reflexivity|]. split; [congruence|].
      now exists o.
    + constructor. cbn. right. split; [reflexivity|]. split; [exact Hq|]. now exists o.
Qed.

Lemma sync_confined (E : effect -> Prop) (A : Type) (Q : exn + A -> Prop) t :
  confined E Q t ->
  forall s, exists extra at_,
    sync t s = (mkProcess (vars s) (promises s) (tasks s) (trace s ++ extra), at_) /\
    Forall E extra /\ confinedAt E Q at_.
Proof.
  induction 1 as [A Q a Ha|A Q e He|A Q e k He _ IH|A Q k _ IH|A Q o m u i k Hr Hk _
                 |A Q cmd k Hc Hk _|A Q k Hk _]; intros s; cbn [sync].
  - exists [], (Finished (inr a)). rewrite app_nil_r. now destruct s.
  - exists [], (Finished (inl e)). rewrite app_nil_r. now destruct s.
  - destruct (IH (emit e s)) as (extra & at_ & Hs & Hh & Hq).
    exists (e :: extra), at_. rewrite Hs. cbn. rewrite <- app_assoc. auto.
  - apply IH.
  - exists [routeRequest o m u i], (OnRoute o m u i k). cbn. repeat split; auto.
  - exists [sqs_send cmd], (OnSqs cmd k). cbn. repeat split; auto.
  - exists [], (OnTick k). rewrite app_nil_r. cbn. now destruct s.
Qed.

Lemma routeless_via sd extra : Forall routeless extra -> Forall (via sd) extra.
Proof.
  intros H. eapply Forall_impl; [|exact H]. intros e. now destruct e.
Qed.

Lemma respects_later sd sd' t :
  sd = sd' \/ sd = None -> respects env sd t -> respects env sd' t.
Proof.
  intros Hsd. destruct t as [p at_|event at_]; [exact (fun H => H)|].
  destruct at_; cbn; try exact (fun H => H).
  - intros H r. eapply confined_mono; [| |apply H].
    + intros e. now apply via_later.
    + intros x. now apply answer_later.
  - intros H r. eapply confined_mono; [| |apply H].
    + intros e. now apply via_later.
    + intros x. now apply answer_later.
  - apply confined_mono.
    + intros e. now apply via_later.
    + intros x. now apply answer_later.
  - now apply answer_later.
Qed.

Lemma confinedAt_respects sd event at_ :
  confinedAt (via sd) (answer env event sd) at_ -> respects env sd (Handling event at_).
Proof. destruct at_; cbn; auto; contradiction. Qed.

(** *** The invariant *)

Lemma routelessly_refl s : routelessly s s.
Proof.
  repeat split. exists []. now rewrite app_nil_r.
Qed.

Lemma sync_handler_first_replying event :
  exists k,
    sync (handler env JSON_parse JSON_stringify event) fresh =
    (mkProcess (mkVars None None (Some 0)) [Pending]
               [Initializing 0 (OnSsm getParameterCommand k)]
               [console_log (ReceivedEvent event); ssm_send getParameterCommand],
     OnPromise 0 (handlerRest env JSON_parse JSON_stringify event))
    /\ replying k.
Proof.
  eexists. split; [reflexivity|].
  assert (Hthrow : forall e, settles (Throw e)).
  { intros e s. exists s, (inl e). split; [reflexivity|apply routelessly_refl]. }
  intros r s. destruct r as [e|res].
  - eexists. eexists. split; [reflexivity|]. split; [|apply Hthrow].
    repeat split. eexists. split; [reflexivity|]. repeat constructor.
  - cbn [bind tryCatch settle].
    destruct (nonEmpty match Param res with Some p => Value p | None => None end)
      as [key|] eqn:Hkey.
    + eexists. eexists. split; [reflexivity|]. split; [apply routelessly_refl|].
      intros s0. cbn. destruct (orchestrator (vars s0)) as [o|].
      * eexists. eexists. split; [reflexivity|]. repeat split.
        exists []. cbn. now rewrite app_nil_r.
      * eexists. eexists. split; [reflexivity|]. repeat split.
        exists (construction env (Some key)). cbn. split; [|repeat constructor].
        now repeat rewrite <- app_assoc.
    + eexists. eexists. split; [reflexivity|]. split; [|apply Hthrow].
      repeat split. eexists. split; [reflexivity|]. repeat constructor.
Qed.

Lemma sharing_invoke_fresh event :
  sharing env (invoke env JSON_parse JSON_stringify event fresh).
Proof.
  unfold invoke. destruct (sync_handler_first_replying event) as (k & -> & Hk).
  split; cbn.
  - repeat constructor.
  - constructor; [exact Hk|]. constructor; [|constructor].
    split; [reflexivity|]. intros r. apply confined_handlerRest.
Qed.

Lemma sharing_step s s' :
  serving env s -> sharing env s ->
  step env JSON_parse JSON_stringify s s' -> sharing env s'.
Proof.
  intros [Hp Hf (at0 & hs & Ht & Hq & Hne & Hst)] [Htr Hts] Hstep.
  destruct Hstep as [event|i event at_ t Hi Hw|i p at_ t Hi Hw].
  - unfold invoke. rewrite (sync_handler_later _ _ _ _ _ Hp).
    split; cbn.
    + apply Forall_app. split; [exact Htr|]. repeat constructor.
    + apply Forall_app. split; [exact Hts|]. constructor; [|constructor].
      split; [reflexivity|]. intros r. apply confined_handlerRest.
  - assert (Hres : respects env (settlement s) (Handling event at_)).
    { rewrite Forall_forall in Hts. apply Hts. eapply nth_error_In; exact Hi. }
    assert (Hc : confined (via (settlement s)) (answer env event (settlement s)) t).
    { destruct Hw as [cmd k r|o m u x k r|cmd k r|k|q k r Hq0]; cbn in Hres;
        try contradiction; try apply Hres.
      destruct Hres as [-> Hk]. unfold settlement. rewrite Hq0. apply Hk. }
    destruct (sync_confined Hc s) as (extra & at' & Hs & Hextra & Hat').
    unfold resumeHandling. rewrite Hs. split; cbn.
    + apply Forall_app. split; [exact Htr|exact Hextra].
    + apply Forall_replace; [exact Hts|]. now apply confinedAt_respects.
  - rewrite Ht in Hi. destruct i as [|j]; cbn in Hi.
    2:{ rewrite Forall_forall in Hq. destruct (Hq (Initializing p at_)).
        eapply nth_error_In; exact Hi. }
    injection Hi as <- <-.
    assert (Hres : respects env (settlement s) (Initializing 0 at0)).
    { rewrite Ht in Hts. now inversion Hts. }
    unfold resumeInitializing.
    destruct Hw as [cmd k r|o m u x k r|cmd k r|k|q k r Hq0]; cbn in Hres;
      try contradiction.
    + destruct (Hres r s) as (s1 & k' & -> & (Hpr & Htk & extra & Hx & Hrl) & Hk').
      assert (Hsame : settlement (park 0 (OnTick k') (setTask 0 (Initializing 0 (OnTick k')) s1))
                      = settlement s).
      { unfold settlement. cbn [park setTask promises]. now rewrite Hpr. }
      split; rewrite Hsame; cbn [park setTask trace tasks].
      * rewrite Hx. apply Forall_app. split; [exact Htr|now apply routeless_via].
      * rewrite Htk. apply Forall_replace; [exact Hts|exact Hk'].
    + destruct (Hres s) as (s1 & r & -> & (Hpr & Htk & extra & Hx & Hrl)).
      cbn in Hst. destruct Hst as (_ & Hpending & _).
      assert (Hnone : settlement s = None) by (unfold settlement; now rewrite Hpending).
      split; cbn [park setTask trace tasks].
      * rewrite Hx. apply Forall_app. split; [|now apply routeless_via].
        eapply Forall_impl; [|exact Htr]. intros e. apply via_later. now right.
      * rewrite Htk. apply Forall_replace; [|exact I].
        eapply Forall_impl; [|exact Hts]. intros t. apply respects_later. now right.
Qed.

Lemma reachable_sharing s :
  steps env JSON_parse JSON_stringify fresh s -> sharing env s.
Proof.
  intros Hsteps. induction Hsteps as [|s1 s2 H1 IH Hstep]; [split; constructor|].
  destruct (reachable_serving H1) as [->|Hs]; [|eapply sharing_step; eassumption].
  destruct Hstep as [event|i event at_ t Hi _|i p at_ t Hi _].
  - apply sharing_invoke_fresh.
  - now destruct i.
  - now destruct i.
Qed.

(** Once the promise has settled, no turn of the loop changes the table of
    promises. *)
Lemma settled_step s s' r :
  serving env s -> settlement s = Some r ->
  step env JSON_parse JSON_stringify s s' -> promises s' = promises s.
Proof.
  intros Hs Hset Hstep. pose proof Hs as [Hp Hf (at0 & hs & Ht & Hq & Hne & Hst)].
  destruct Hstep as [event|i event at_ t Hi Hw|i p at_ t Hi Hw].
  - unfold invoke. now rewrite (sync_handler_later _ _ _ _ _ Hp).
  - rewrite Ht in Hi. destruct i as [|j]; [discriminate|]. cbn in Hi.
    assert (Hat : quietAt at_).
    { rewrite Forall_forall in Hq. apply (Hq (Handling event at_)).
      eapply nth_error_In; exact Hi. }
    destruct (sync_quiet (wakes_quiet Hat Hw) s) as (extra & at' & Hsync & _).
    unfold resumeHandling. now rewrite Hsync.
  - rewrite Ht in Hi. destruct i as [|j]; cbn in Hi.
    2:{ rewrite Forall_forall in Hq. destruct (Hq (Initializing p at_)).
        eapply nth_error_In; exact Hi. }
    injection Hi as <- <-. unfold settlement in Hset.
    destruct Hw; cbn in Hst; try contradiction;
      destruct Hst as (_ & Hpending & _); rewrite Hpending in Hset; discriminate.
Qed.

Lemma settled_steps s s' r :
  serving env s -> settlement s = Some r ->
  steps env JSON_parse JSON_stringify s s' -> promises s' = promises s.
Proof.
  intros Hs Hset Hsteps. induction Hsteps as [|s1 s2 H1 IH H2]; [reflexivity|].
  rewrite <- IH. eapply settled_step with (r := r); [| |exact H2].
  - eapply serving_steps; eassumption.
  - unfold settlement in *. now rewrite IH.
Qed.

Lemma settled_serving s r :
  steps env JSON_parse JSON_stringify fresh s -> settlement s = Some r -> serving env s.
Proof.
  intros Hsteps Hset. destruct (reachable_serving Hsteps) as [->|Hs]; [discriminate|exact Hs].
Qed.

Lemma finished_answer s i event r :
  steps env JSON_parse JSON_stringify fresh s ->
  nth_error (tasks s) i = Some (Handling event (Finished r)) ->
  answer env event (settlement s) r.
Proof.
  intros Hsteps Hi. destruct (reachable_sharing Hsteps) as [_ Hts].
  rewrite Forall_forall in Hts. apply (Hts (Handling event (Finished r))).
  eapply nth_error_In; exact Hi.
Qed.

Lemma steps_promiseSettled i s :
  steps env JSON_parse JSON_stringify s (promiseSettled i s).
Proof.
  unfold promiseSettled.
  destruct (nth_error (tasks s) i) as [[|event [| | | |p k|]]|] eqn:Hi; try apply steps_none.
  destruct (nth_error (promises s) p) as [[|r]|] eqn:Hp; try apply steps_none.
  eapply steps_more; [apply steps_none|].
  eapply step_handling; [exact Hi|now constructor].
Qed.

Lemma steps_routeReplies i r s :
  steps env JSON_parse JSON_stringify s (routeReplies i r s).
Proof.
  unfold routeReplies.
  destruct (nth_error (tasks s) i) as [[|event [|o m u x k| | | |]]|] eqn:Hi;
    try apply steps_none.
  eapply steps_more; [apply steps_none|].
  eapply step_handling; [exact Hi|constructor].
Qed.

Lemma steps_sqsReplies i r s :
  steps env JSON_parse JSON_stringify s (sqsReplies i r s).
Proof.
  unfold sqsReplies.
  destruct (nth_error (tasks s) i) as [[|event [| |cmd k| | |]]|] eqn:Hi;
    try apply steps_none.
  eapply steps_more; [apply steps_none|].
  eapply step_handling; [exact Hi|constructor].
Qed.

(** *** What invocations share, in any interleaving *)

(** X10.  However the invocations of a process are interleaved, an
    invocation that has returned has returned the summary of its own batch,
    and only after the shared promise was fulfilled; an invocation that has
    thrown has thrown the error the shared promise was rejected with, or, if
    QUEUE_URL is not set, the error of line 112. *)
Theorem finished_invocation_answers_its_own_batch s i event r :
  steps env JSON_parse JSON_stringify fresh s ->
  nth_error (tasks s) i = Some (Handling event (Finished r)) ->
  match r with
  | inr x =>
      x = mkSummary ("Processed " ++ decimal (length (Records event)) ++ " messages") /\
      exists o, settlement s = Some (inr o)
  | inl e =>
      settlement s = Some (inl e) \/
      (e = Error "QUEUE_URL environment variable is not set" /\
       nonEmpty (QUEUE_URL env) = None)
  end.
Proof.
  intros Hsteps Hi. pose proof (finished_answer _ Hsteps Hi) as Ha.
  destruct r as [e|x]; cbn in Ha.
  - destruct Ha as [H|(H1 & H2 & _)]; auto.
  - destruct Ha as (H1 & _ & H2). auto.
Qed.

(** X11.  However the invocations of a process are interleaved, every
    [routeRequest] made in it, by whichever invocation, went to one and the
    same orchestrator: the one the shared promise was fulfilled with, which
    is the one the variable [orchestrator] holds.  Nothing is routed before
    that promise is fulfilled. *)
Theorem every_routeRequest_goes_to_the_shared_orchestrator s :
  steps env JSON_parse JSON_stringify fresh s ->
  Forall (fun call => settlement s = Some (inr (fst call)) /\
                      orchestrator (vars s) = Some (fst call))
         (routed (trace s)).
Proof.
  intros Hsteps. destruct (reachable_sharing Hsteps) as [Htr _].
  eapply Forall_impl; [|apply OneCall.Forall_routed; exact Htr].
  intros [o [m [u x]]] Hvia. cbn [fst snd via] in *. split; [exact Hvia|].
  pose proof (settled_serving Hsteps Hvia) as [_ _ (at0 & hs & _ & _ & _ & Hst)].
  unfold settlement in Hvia.
  destruct at0 as [cmd k| | |k| |[e|o']]; cbn in Hst; try contradiction.
  - destruct Hst as (_ & Hpr & _). rewrite Hpr in Hvia. discriminate.
  - destruct Hst as (_ & Hpr & _). rewrite Hpr in Hvia. discriminate.
  - destruct Hst as (Hpr & _). rewrite Hpr in Hvia. discriminate.
  - destruct Hst as (Hpr & _ & _ & Ho & _). rewrite Hpr in Hvia. cbn in Hvia. congruence.
Qed.

(** The shared promise settles once and for all. *)
Lemma settlement_is_final s s' r :
  steps env JSON_parse JSON_stringify fresh s ->
  settlement s = Some r ->
  steps env JSON_parse JSON_stringify s s' ->
  settlement s' = Some r /\
  orchestratorPromise (vars s') = Some 0 /\
  length (promises s') = 1 /\
  fetched (trace s') = [getParameterCommand].
Proof.
  intros Hsteps Hset Hlater.
  pose proof (settled_serving Hsteps Hset) as Hs.
  pose proof (settled_steps Hs Hset Hlater) as Hpr.
  pose proof (serving_steps Hs Hlater) as [Hp Hf (at0 & hs & _ & _ & _ & Hst)].
  split; [unfold settlement in *; now rewrite Hpr|]. split; [exact Hp|]. split; [|exact Hf].
  destruct at0 as [cmd k| | |k| |[e|o]]; cbn in Hst; try contradiction.
  - destruct Hst as (_ & -> & _). reflexivity.
  - destruct Hst as (_ & -> & _). reflexivity.
  - destruct Hst as (-> & _). reflexivity.
  - destruct Hst as (-> & _). reflexivity.
Qed.

(** X12.  Once the shared promise is fulfilled, the process keeps its
    orchestrator for good: however it goes on, the promise stays fulfilled
    with the same orchestrator, the variables [orchestratorPromise],
    [orchestrator] and [apiKey] keep their values, [initializeOrchestrator]
    is not called again and no key is fetched again. *)
Theorem fulfilled_promise_is_final s s' o :
  steps env JSON_parse JSON_stringify fresh s ->
  settlement s = Some (inr o) ->
  steps env JSON_parse JSON_stringify s s' ->
  settlement s' = Some (inr o) /\
  vars s' = vars s /\
  orchestrator (vars s') = Some o /\
  initializations s' = 1 /\
  fetched (trace s') = [getParameterCommand].
Proof.
  intros Hsteps Hset Hlater.
  destruct (settlement_is_final Hsteps Hset Hlater) as (Hset' & _ & _ & Hf).
  pose proof (settled_serving Hsteps Hset) as Hs.
  pose proof Hs as [_ _ (at0 & hs & _ & _ & _ & Hst)].
  assert (Hkey : orchestrator (vars s) = Some o /\ exists key, apiKey (vars s) = Some key).
  { unfold settlement in Hset.
    destruct at0 as [cmd k| | |k| |[e|o']]; cbn in Hst; try contradiction.
    - destruct Hst as (_ & Hpr & _). rewrite Hpr in Hset. discriminate.
    - destruct Hst as (_ & Hpr & _). rewrite Hpr in Hset. discriminate.
    - destruct Hst as (Hpr & _). rewrite Hpr in Hset. discriminate.
    - destruct Hst as (Hpr & _ & _ & Ho & key & _ & Hk & _). rewrite Hpr in Hset.
      cbn in Hset. split; [congruence|now exists key]. }
  destruct Hkey as [Ho (key & Hk)].
  pose proof (cached_key_steps Hs Hk Hlater) as Hvars.
  split; [exact Hset'|]. split; [exact Hvars|]. split; [now rewrite Hvars|].
  split; [|exact Hf].
  pose proof (serving_steps Hs Hlater) as [_ _ (at1 & hs1 & Ht1 & Hq1 & _)].
  destruct (quietTasks_count Hq1) as [Hinit _].
  unfold initializations. rewrite Ht1. cbn [filter]. now rewrite Hinit.
Qed.

(** The failing input of C2 in any interleaving: after the initialization
    has failed, every invocation that ends in the process, already begun or
    still to come, throws the error of that one failure. *)
Lemma after_a_rejection_every_invocation_throws s s' e i event r :
  moduleGuard env = inr tt ->
  steps env JSON_parse JSON_stringify fresh s ->
  settlement s = Some (inl e) ->
  steps env JSON_parse JSON_stringify s s' ->
  nth_error (tasks s') i = Some (Handling event (Finished r)) ->
  r = inl e.
Proof.
  intros Hguard Hsteps Hset Hlater Hi.
  pose proof (settled_serving Hsteps Hset) as Hs.
  pose proof (settled_steps Hs Hset Hlater) as Hpr.
  assert (Hset' : settlement s' = Some (inl e)) by (unfold settlement in *; now rewrite Hpr).
  pose proof (finished_answer _ (steps_trans Hsteps Hlater) Hi) as Ha.
  rewrite Hset' in Ha. destruct r as [e'|x]; cbn in Ha.
  - destruct Ha as [[= ->]|(_ & _ & o & H)]; [reflexivity|discriminate].
  - destruct Ha as (_ & _ & o & H). discriminate.
Qed.

End Steps.

(** *** At concrete inputs *)

Lemma reach_oneInvocation :
  steps Demo.env Demo.JSON_parse Demo.JSON_stringify fresh Demo.oneInvocation.
Proof.
  unfold Demo.oneInvocation, Demo.keyCached.
  eapply steps_trans; [|apply steps_sqsReplies].
  eapply steps_trans; [|apply steps_routeReplies].
  eapply steps_trans; [|apply steps_promiseSettled].
  eapply steps_trans; [|apply steps_tickPasses].
  eapply steps_trans; [|apply steps_ssmReplies].
  apply steps_invoke.
Qed.

Lemma reach_initializationFailed :
  steps Demo.env Demo.JSON_parse Demo.JSON_stringify fresh DemoRuns.initializationFailed.
Proof.
  unfold DemoRuns.initializationFailed.
  eapply steps_trans; [|apply steps_tickPasses].
  eapply steps_trans; [|apply steps_ssmReplies].
  apply steps_invoke.
Qed.

Lemma reach_secondAfterFailure :
  steps Demo.env Demo.JSON_parse Demo.JSON_stringify
        DemoRuns.initializationFailed DemoRuns.secondAfterFailure.
Proof.
  unfold DemoRuns.secondAfterFailure.
  eapply steps_trans; [|apply steps_promiseSettled].
  apply steps_invoke.
Qed.

(** X10 for one invocation followed to its end. *)
Lemma finished_invocation_answers_its_own_batch_witness :
  mkSummary "Processed 2 messages" =
    mkSummary ("Processed " ++ decimal (length (Records Demo.twoRecords)) ++ " messages") /\
  exists o, settlement Demo.oneInvocation = Some (inr o).
Proof.
  exact (@finished_invocation_answers_its_own_batch
           Demo.env Demo.JSON_parse Demo.JSON_stringify Demo.oneInvocation 1
           Demo.twoRecords (inr (mkSummary "Processed 2 messages"))
           reach_oneInvocation eq_refl).
Defined.

(** X11 for the same run, in which one record is routed. *)
Lemma every_routeRequest_goes_to_the_shared_orchestrator_witness :
  length (routed (trace Demo.oneInvocation)) = 1 /\
  Forall (fun call => settlement Demo.oneInvocation = Some (inr (fst call)) /\
                      orchestrator (vars Demo.oneInvocation) = Some (fst call))
         (routed (trace Demo.oneInvocation)).
Proof.
  split; [reflexivity|].
  exact (@every_routeRequest_goes_to_the_shared_orchestrator
           Demo.env Demo.JSON_parse Demo.JSON_stringify Demo.oneInvocation
           reach_oneInvocation).
Defined.

(** X12: the key is cached and the orchestrator built, then the handler is
    invoked again. *)
Lemma fulfilled_promise_is_final_witness :
  settlement (invoke Demo.env Demo.JSON_parse Demo.JSON_stringify Demo.fourRecords
                     Demo.keyCached) = Some (inr Demo.someOrchestrator) /\
  initializations (invoke Demo.env Demo.JSON_parse Demo.JSON_stringify Demo.fourRecords
                          Demo.keyCached) = 1.
Proof.
  assert (Hreach : steps Demo.env Demo.JSON_parse Demo.JSON_stringify fresh Demo.keyCached).
  { unfold Demo.keyCached.
    eapply steps_trans; [|apply steps_tickPasses].
    eapply steps_trans; [|apply steps_ssmReplies].
    apply steps_invoke. }
  destruct (@fulfilled_promise_is_final
              Demo.env Demo.JSON_parse Demo.JSON_stringify Demo.keyCached
              (invoke Demo.env Demo.JSON_parse Demo.JSON_stringify Demo.fourRecords
                      Demo.keyCached)
              Demo.someOrchestrator Hreach eq_refl
              (steps_invoke Demo.env Demo.JSON_parse Demo.JSON_stringify
                            Demo.fourRecords Demo.keyCached))
    as (Hset & _ & _ & Hinit & _).
  exact (conj Hset Hinit).
Defined.

(** The second invocation after a failed initialization throws its error. *)
Example second_invocation_after_failure :
  nth_error (tasks DemoRuns.secondAfterFailure) 2 =
    Some (Handling Demo.fourRecords (Finished (inl (Error "Failed to retrieve API key")))) /\
  fetched (trace DemoRuns.secondAfterFailure) = [getParameterCommand].
Proof. split; reflexivity. Qed.

End ManyCallsMore.

(** ** One initialization for all invocations *)

Module SingleFlight.

Import Loop.
Import Sharing.
Import ManyCalls.
Import ManyCallsMore.

Section Steps.

Variable env : Env.
Variable JSON_parse : string -> exn + value.
Variable JSON_stringify : value -> exn + string.

(** *** Invocations begun while the promise exists *)

Lemma invoke_later event s p :
  orchestratorPromise (vars s) = Some p ->
  invoke env JSON_parse JSON_stringify event s =
  mkProcess (vars s) (promises s)
            (tasks s ++ [awaiting env JSON_parse JSON_stringify p event])
            (trace s ++ [console_log (ReceivedEvent event)]).
Proof.
  intros Hp. unfold invoke. now rewrite (sync_handler_later _ _ _ _ _ Hp).
Qed.

Lemma begun_later events s p :
  orchestratorPromise (vars s) = Some p ->
  begun env JSON_parse JSON_stringify events s =
  mkProcess (vars s) (promises s)
            (tasks s ++ map (awaiting env JSON_parse JSON_stringify p) events)
            (trace s ++ map (fun event => console_log (ReceivedEvent event)) events).
Proof.
  revert s. induction events as [|event events IH]; intros s Hp.
  - cbn. rewrite !app_nil_r. now destruct s.
  - unfold begun. cbn [fold_left].
    fold (begun env JSON_parse JSON_stringify events
                (invoke env JSON_parse JSON_stringify event s)).
    rewrite (invoke_later _ _ Hp), IH by exact Hp.
    cbn [vars promises tasks trace map]. now rewrite <- !app_assoc.
Qed.

Lemma steps_begun events s :
  steps env JSON_parse JSON_stringify s (begun env JSON_parse JSON_stringify events s).
Proof.
  revert s. induction events as [|event events IH]; intros s; [apply steps_none|].
  unfold begun. cbn [fold_left]. eapply steps_trans; [apply steps_invoke|apply IH].
Qed.

(** *** The first invocation and the one call it makes *)

(** The first invocation leaves [initializeOrchestrator] waiting for the
    parameter store.  Whatever the reply, it then waits for one tick, having
    logged the error if the reply gave no key; after the tick, run where no
    orchestrator exists, it stores the key and builds the orchestrator when
    the reply gave a key, and throws otherwise. *)
Lemma invoke_first event :
  exists k,
    invoke env JSON_parse JSON_stringify event fresh =
    mkProcess (mkVars None None (Some 0)) [Pending]
              [Initializing 0 (OnSsm getParameterCommand k);
               awaiting env JSON_parse JSON_stringify 0 event]
              [console_log (ReceivedEvent event); ssm_send getParameterCommand] /\
    forall reply s, exists k',
      sync (k reply) s =
        (mkProcess (vars s) (promises s) (tasks s)
                   (trace s ++ match nonEmpty (yielded reply) with
                               | Some _ => []
                               | None => [console_error
                                            (ErrorRetrievingApiKey (fetchError reply))]
                               end),
         OnTick k') /\
      forall s', orchestrator (vars s') = None ->
        sync k' s' =
        match nonEmpty (yielded reply) with
        | Some key =>
            (mkProcess (mkVars (Some key) (Some (constructed env (Some key)))
                               (orchestratorPromise (vars s')))
                       (promises s') (tasks s') (trace s' ++ construction env (Some key)),
             Finished (inr (constructed env (Some key))))
        | None => (s', Finished (inl (Error "Failed to retrieve API key")))
        end.
Proof.
  eexists. split; [reflexivity|].
  intros reply s. destruct reply as [e|res].
  - eexists. split; [reflexivity|]. intros s' _. reflexivity.
  - cbn [bind tryCatch settle yielded fetchError].
    destruct (nonEmpty match Param res with Some p => Value p | None => None end)
      as [key|] eqn:Hkey.
    + eexists. split; [cbn; rewrite app_nil_r; destruct s; reflexivity|].
      intros s' Hnone. cbn. rewrite Hnone. cbn.
      unfold assign, emit, set_orchestrator, set_apiKey, constructed. cbn.
      repeat rewrite <- app_assoc. reflexivity.
    + eexists. split; [reflexivity|]. intros s' _. reflexivity.
Qed.

(** The process once the one call of [initializeOrchestrator] has ended:
    some invocations begun before the parameter store replied, more begun
    between the reply and the tick. *)
Lemma ended_initialization first others late reply :
  tickPasses 0
    (begun env JSON_parse JSON_stringify late
       (ssmReplies 0 reply
          (begun env JSON_parse JSON_stringify (first :: others) fresh))) =
  let received := map (fun event => console_log (ReceivedEvent event)) in
  let waiting := map (awaiting env JSON_parse JSON_stringify 0) in
  match nonEmpty (yielded reply) with
  | Some key =>
      mkProcess (mkVars (Some key) (Some (constructed env (Some key))) (Some 0))
                [Settled (inr (constructed env (Some key)))]
                (Initializing 0 (Finished (inr (constructed env (Some key))))
                 :: waiting (first :: others ++ late))
                (console_log (ReceivedEvent first) :: ssm_send getParameterCommand
                 :: received others ++ received late ++ construction env (Some key))
  | None =>
      mkProcess (mkVars None None (Some 0))
                [Settled (inl (Error "Failed to retrieve API key"))]
                (Initializing 0 (Finished (inl (Error "Failed to retrieve API key")))
                 :: waiting (first :: others ++ late))
                (console_log (ReceivedEvent first) :: ssm_send getParameterCommand
                 :: received others
                 ++ [console_error (ErrorRetrievingApiKey (fetchError reply))]
                 ++ received late)
  end.
Proof.
  cbn zeta. unfold begun at 2. cbn [fold_left].
  fold (begun env JSON_parse JSON_stringify others
              (invoke env JSON_parse JSON_stringify first fresh)).
  destruct (invoke_first first) as (k & -> & Hk).
  rewrite (@begun_later others
             (mkProcess (mkVars None None (Some 0)) [Pending]
                [Initializing 0 (OnSsm getParameterCommand k);
                 awaiting env JSON_parse JSON_stringify 0 first]
                [console_log (ReceivedEvent first); ssm_send getParameterCommand])
             0 eq_refl).
  cbn [vars promises tasks trace app].
  unfold ssmReplies. cbn [tasks nth_error]. unfold resumeInitializing.
  destruct (Hk reply
              (mkProcess (mkVars None None (Some 0)) [Pending]
                 (Initializing 0 (OnSsm getParameterCommand k)
                  :: awaiting env JSON_parse JSON_stringify 0 first
                  :: map (awaiting env JSON_parse JSON_stringify 0) others)
                 (console_log (ReceivedEvent first) :: ssm_send getParameterCommand
                  :: map (fun event => console_log (ReceivedEvent event)) others)))
    as (k' & -> & Hk').
  unfold park, setTask. cbn [vars promises tasks trace replace].
  rewrite begun_later with (p := 0) by reflexivity. cbn [vars promises tasks trace app].
  unfold tickPasses. cbn [tasks nth_error]. unfold resumeInitializing.
  rewrite Hk' by reflexivity.
  destruct (nonEmpty (yielded reply)) as [key|];
    unfold park, setTask;
    cbn [vars promises tasks trace replace orchestratorPromise app map];
    rewrite ?map_app, <- ?app_assoc; cbn [app]; rewrite ?app_nil_r; reflexivity.
Qed.

(** *** Line 107 is passed only once the promise has settled *)

Lemma waiting_or_settled s :
  steps env JSON_parse JSON_stringify fresh s ->
  Forall (fun t => match t with
                   | Handling event at_ =>
                       at_ = OnPromise 0 (handlerRest env JSON_parse JSON_stringify event) \/
                       settlement s <> None
                   | Initializing _ _ => True
                   end) (tasks s).
Proof.
  intros Hsteps. induction Hsteps as [|s1 s2 H1 IH Hstep]; [constructor|].
  destruct (reachable_serving H1) as [->|Hs].
  { destruct Hstep as [event|i event at_ t Hi _|i p at_ t Hi _];
      [|now destruct i|now destruct i].
    destruct (invoke_first event) as (k & -> & _). cbn.
    constructor; [exact I|]. constructor; [now left|constructor]. }
  pose proof Hs as [Hp Hf (at0 & hs & Ht & Hq & Hne & Hst)].
  destruct Hstep as [event|i event at_ t Hi Hw|i p at_ t Hi Hw].
  - rewrite (invoke_later _ _ Hp). cbn [tasks]. apply Forall_app. split.
    + eapply Forall_impl; [|exact IH]. intros [p at_|ev at_]; [trivial|]. exact (fun H => H).
    + constructor; [now left|constructor].
  - assert (Hat : quietAt at_).
    { rewrite Ht in Hi. destruct i as [|j]; [discriminate|]. cbn in Hi.
      rewrite Forall_forall in Hq. apply (Hq (Handling event at_)).
      eapply nth_error_In; exact Hi. }
    assert (Hset : settlement s1 <> None).
    { rewrite Forall_forall in IH.
      destruct (IH (Handling event at_) (nth_error_In _ _ Hi)) as [->|H]; [|exact H].
      inversion Hw as [| | | |p k r Hr]. unfold settlement. now rewrite Hr. }
    destruct (sync_quiet (wakes_quiet Hat Hw) s1) as (extra & at' & Hsync & _).
    unfold resumeHandling. rewrite Hsync. unfold setTask. cbn [tasks vars promises trace].
    apply Forall_replace.
    + eapply Forall_impl; [|exact IH]. intros [p a|ev a]; [trivial|]. exact (fun H => H).
    + now right.
  - rewrite Ht in Hi. destruct i as [|j]; cbn in Hi.
    2:{ rewrite Forall_forall in Hq. destruct (Hq (Initializing p at_)).
        eapply nth_error_In; exact Hi. }
    injection Hi as <- <-.
    assert (Hpending : settlement s1 = None).
    { unfold settlement.
      destruct Hw; cbn in Hst; try contradiction;
        destruct Hst as (_ & -> & _); reflexivity. }
    assert (Hleft : Forall (fun t => match t with
                     | Handling event a =>
                         a = OnPromise 0 (handlerRest env JSON_parse JSON_stringify event)
                     | Initializing _ _ => True
                     end) (tasks s1)).
    { eapply Forall_impl; [|exact IH]. intros [p a|ev a]; [trivial|].
      intros [H|H]; [exact H|]. now destruct H. }
    assert (Hgoal : forall s' at', tasks s' = tasks s1 ->
              Forall (fun t => match t with
                     | Handling event a =>
                         a = OnPromise 0 (handlerRest env JSON_parse JSON_stringify event) \/
                         settlement (park 0 at' (setTask 0 (Initializing 0 at') s')) <> None
                     | Initializing _ _ => True
                     end) (tasks (park 0 at' (setTask 0 (Initializing 0 at') s')))).
    { intros s' at' Hsame.
      assert (Htasks : tasks (park 0 at' (setTask 0 (Initializing 0 at') s'))
                       = replace 0 (Initializing 0 at') (tasks s1)).
      { destruct at'; cbn; now rewrite Hsame. }
      rewrite Htasks. apply Forall_replace; [|exact I].
      eapply Forall_impl; [|exact Hleft]. intros [p a|ev a]; [trivial|]. now left. }
    unfold resumeInitializing.
    destruct Hw as [cmd k r|o m u x k r|cmd k r|k|q k r Hq0]; cbn in Hst; try contradiction.
    + destruct Hst as (Hk & _). destruct (Hk r s1) as (extra & k' & -> & _).
      now apply Hgoal.
    + destruct Hst as (Hk & _ & _ & _ & _ & Horch).
      destruct (Hk s1 Horch) as [(e & ->)|(key & _ & ->)]; now apply Hgoal.
Qed.

Lemma handlers_counted hs :
  Forall quietTask hs ->
  length (filter (fun t => match t with Handling _ _ => true | _ => false end) hs) = length hs.
Proof.
  induction 1 as [|t hs Ht _ IH]; [reflexivity|].
  destruct t; cbn in *; [contradiction|]. now rewrite IH.
Qed.

Lemma waiting_counted events p :
  length (filter (fun t => match t with Handling _ _ => true | _ => false end)
                 (map (awaiting env JSON_parse JSON_stringify p) events)) = length events /\
  filter (fun t => match t with Initializing _ _ => true | _ => false end)
         (map (awaiting env JSON_parse JSON_stringify p) events) = [].
Proof.
  induction events as [|event events [IH1 IH2]]; [split; reflexivity|].
  cbn. now rewrite IH1, IH2.
Qed.

Lemma received_only events :
  fetched (map (fun event => console_log (ReceivedEvent event)) events) = [] /\
  built (map (fun event => console_log (ReceivedEvent event)) events) = [] /\
  registered (map (fun event => console_log (ReceivedEvent event)) events) = [].
Proof.
  induction events as [|event events (IH1 & IH2 & IH3)]; [repeat split|].
  cbn. auto.
Qed.

(** *** The claim *)

(** C3.  Any number of invocations begin in a fresh process (at least one
    before the parameter store replies, any others between its reply and
    the turn in which the initialization goes on).  While the call is in
    flight there is one pending promise, one fetch has been issued, and every
    invocation is suspended at line 107 waiting for that promise.  When the
    initialization has ended, [initializeOrchestrator] has been called once
    and the key fetched once; if the reply carried a key, the promise is
    fulfilled with the one orchestrator built, whose three agents were
    registered once; if not, it is rejected and nothing was built; and all
    the invocations are still waiting for that promise.  However the process
    goes on from any such beginning, in every state it reaches there is one
    call of [initializeOrchestrator], one promise, one fetch, at most one
    orchestrator built (exactly one, with its three agents, once the promise
    is fulfilled); every invocation either waits at line 107 for that promise
    or has passed it after the promise settled; and every [routeRequest]
    made went to the orchestrator that promise was fulfilled with. *)
Theorem single_flight_initialization :
  (forall first others late reply,
     let inFlight := begun env JSON_parse JSON_stringify (first :: others) fresh in
     let s := tickPasses 0 (begun env JSON_parse JSON_stringify late
                                  (ssmReplies 0 reply inFlight)) in
     (promises inFlight = [Pending] /\
      fetched (trace inFlight) = [getParameterCommand] /\
      tl (tasks inFlight) = map (awaiting env JSON_parse JSON_stringify 0) (first :: others)) /\
     steps env JSON_parse JSON_stringify fresh s /\
     invocations s = length (first :: others ++ late) /\
     initializations s = 1 /\
     fetched (trace s) = [getParameterCommand] /\
     orchestratorPromise (vars s) = Some 0 /\
     tl (tasks s) = map (awaiting env JSON_parse JSON_stringify 0) (first :: others ++ late) /\
     match nonEmpty (yielded reply) with
     | Some key =>
         promises s = [Settled (inr (constructed env (Some key)))] /\
         built (trace s) = [orchestratorOptions env (Some key)] /\
         registered (trace s) = [orderManagementAgent; productInfoAgent; humanAgent env] /\
         orchestrator (vars s) = Some (constructed env (Some key))
     | None =>
         promises s = [Settled (inl (Error "Failed to retrieve API key"))] /\
         built (trace s) = [] /\
         registered (trace s) = []
     end) /\
  (forall s,
     steps env JSON_parse JSON_stringify fresh s ->
     1 <= invocations s ->
     initializations s = 1 /\
     length (promises s) = 1 /\
     fetched (trace s) = [getParameterCommand] /\
     match promises s with
     | [Settled (inr o)] =>
         built (trace s) = [options o] /\
         registered (trace s) = [orderManagementAgent; productInfoAgent; humanAgent env]
     | _ => built (trace s) = [] /\ registered (trace s) = []
     end /\
     orchestratorPromise (vars s) = Some 0 /\
     Forall (fun p => p = 0) (awaited s) /\
     (exists at0 handlers,
        tasks s = Initializing 0 at0 :: handlers /\
        length handlers = invocations s /\
        Forall (fun t => exists event at_,
                  t = Handling event at_ /\
                  (at_ = OnPromise 0 (handlerRest env JSON_parse JSON_stringify event) \/
                   exists r, promises s = [Settled r])) handlers) /\
     Forall (fun call => promises s = [Settled (inr (fst call))]) (routed (trace s))).
Proof.
  split.
  - intros first others late reply. cbn zeta. split; [|split].
    + unfold begun. cbn [fold_left].
      fold (begun env JSON_parse JSON_stringify others
                  (invoke env JSON_parse JSON_stringify first fresh)).
      destruct (invoke_first first) as (k & -> & _).
      rewrite begun_later with (p := 0) by reflexivity.
      cbn [vars promises tasks trace app tl map fetched flat_map].
      destruct (received_only others) as (Hf & _).
      fold (fetched (map (fun event => console_log (ReceivedEvent event)) others)).
      now rewrite Hf.
    + eapply steps_trans; [|apply steps_tickPasses].
      eapply steps_trans; [|apply steps_begun].
      eapply steps_trans; [|apply steps_ssmReplies].
      apply steps_begun.
    + rewrite ended_initialization. cbn zeta.
      destruct (waiting_counted (first :: others ++ late) 0) as [Hcount Hnone].
      destruct (received_only others) as (Hf1 & Hb1 & Hr1).
      destruct (received_only late) as (Hf2 & Hb2 & Hr2).
      set (received := map (fun event => console_log (ReceivedEvent event))) in *.
      destruct (nonEmpty (yielded reply)) as [key|];
        unfold invocations, initializations;
        cbn [vars promises tasks trace tl filter orchestratorPromise orchestrator];
        rewrite Hcount, Hnone;
        change (console_log (ReceivedEvent first) :: ssm_send getParameterCommand
                :: ?rest)
          with ([console_log (ReceivedEvent first); ssm_send getParameterCommand] ++ rest);
        rewrite !fetched_app, !built_app, !registered_app, Hf1, Hf2, Hb1, Hb2, Hr1, Hr2;
        repeat split.
  - intros s Hsteps Hn.
    destruct (reachable_serving Hsteps) as [->|[Hp Hf (at0 & hs & Ht & Hq & Hne & Hst)]].
    { cbn in Hn. lia. }
    destruct (quietTasks_count Hq) as [Hinit Hawait].
    pose proof (handlers_counted Hq) as Hcount.
    pose proof (waiting_or_settled Hsteps) as Hwait.
    destruct (reachable_sharing Hsteps) as [Hvia _].
    unfold initializations, invocations, awaited. rewrite Ht.
    cbn [filter flat_map length app]. rewrite Hinit, Hcount.
    assert (Hstage :
      length (promises s) = 1 /\
      match promises s with
      | [Settled (inr o)] =>
          built (trace s) = [options o] /\
          registered (trace s) = [orderManagementAgent; productInfoAgent; humanAgent env]
      | _ => built (trace s) = [] /\ registered (trace s) = []
      end).
    { destruct at0 as [cmd k| | |k| |[e|o]]; cbn in Hst; try contradiction.
      - destruct Hst as (_ & -> & Hb & Hr & _). auto.
      - destruct Hst as (_ & -> & Hb & Hr & _). auto.
      - destruct Hst as (-> & Hb & Hr & _). auto.
      - destruct Hst as (-> & Hb & Hr & _ & key & _ & _ & ->). auto. }
    destruct Hstage as [Hlen Hbuilt].
    assert (Hsettled : forall r, settlement s = Some r -> promises s = [Settled r]).
    { unfold settlement. intros r.
      destruct (promises s) as [|[|r'] [|x rest]]; cbn in *; try discriminate; congruence. }
    split; [reflexivity|]. split; [exact Hlen|]. split; [exact Hf|]. split; [exact Hbuilt|].
    split; [exact Hp|]. split; [exact Hawait|]. split.
    + exists at0, hs. split; [reflexivity|]. split; [reflexivity|].
      rewrite Ht in Hwait. inversion Hwait as [|x l _ Hhs]; subst.
      rewrite Forall_forall in Hq, Hhs |- *. intros t Hin.
      specialize (Hq t Hin). specialize (Hhs t Hin).
      destruct t as [p at_|event at_]; [contradiction|].
      exists event, at_. split; [reflexivity|].
      destruct Hhs as [H|H]; [now left|right].
      destruct (settlement s) as [r|] eqn:Hr; [|now destruct H].
      exists r. now apply Hsettled.
    + eapply Forall_impl; [|apply OneCall.Forall_routed; exact Hvia].
      intros [o [m [u x]]] H. cbn [fst snd via] in *. now apply Hsettled.
Qed.

End Steps.

(** C3 at a concrete input: two invocations begun before the parameter
    store replies with the key, a third begun between the reply and the turn
    in which the initialization goes on.  One fetch, one orchestrator with
    its three agents, and all three invocations waiting for the one promise,
    now fulfilled. *)
Lemma single_flight_initialization_witness :
  steps Demo.env Demo.JSON_parse Demo.JSON_stringify fresh Demo.threeSharing /\
  invocations Demo.threeSharing = 3 /\
  initializations Demo.threeSharing = 1 /\
  fetched (trace Demo.threeSharing) = [getParameterCommand] /\
  promises Demo.threeSharing = [Settled (inr Demo.someOrchestrator)] /\
  built (trace Demo.threeSharing) = [options Demo.someOrchestrator] /\
  registered (trace Demo.threeSharing) =
    [orderManagementAgent; productInfoAgent; humanAgent Demo.env] /\
  awaited Demo.threeSharing = [0; 0; 0] /\
  length (promises Demo.threeSharing) = 1.
Proof.
  destruct (@single_flight_initialization Demo.env Demo.JSON_parse Demo.JSON_stringify)
    as [Hbegin Hall].
  destruct (Hbegin Demo.twoRecords [Demo.twoRecords] [Demo.fourRecords]
                   (inr (mkGetParameterResult (Some (mkSsmParameter (Some "sk-demo"))))))
    as (_ & Hsteps & Hn & Hinit & Hfetched & _ & _ & Hpromise & Hbuilt & Hregistered & _).
  destruct (Hall Demo.threeSharing Hsteps) as (_ & Hlen & _).
  { unfold Demo.threeSharing. rewrite Hn. cbn. lia. }
  repeat split; try assumption.
Defined.

End SingleFlight.
